(** * Peer connection manager of the signature aggregator

    A shallow embedding of [signature-aggregator/peers/app_request_network.go]:
    [ConnectPeers] and [ConnectToCanonicalValidators], the calls they make on
    the p2p network, the info API and the validator client, and the mutex
    that guards [ConnectPeers]. *)

From stdpp Require Import gmap sets list strings.
From Stdlib Require Import ZArith Lia.

#[local] Set Warnings "-clear-no-such-hyp".

(** ** Data model *)

(** [ids.NodeID] is a 20-byte array and [ids.ID] a 32-byte array; both are
    only compared and used as map keys, so each is the number its bytes
    spell. *)
Abbreviation NodeID := N (only parsing).
Abbreviation ID := N (only parsing).

(** [netip.AddrPort]: address and port. *)
Abbreviation AddrPort := (N * N)%type (only parsing).

(** Go's [error] values, by their text. *)
Abbreviation error := string (only parsing).

(** A Go [(value, error)] pair, of which exactly one side is meaningful. *)
Inductive result (A : Type) : Type :=
| Ok (a : A)
| Err (e : error).
Arguments Ok {A} a.
Arguments Err {A} e.

(** What a Go call does when it ends: it returns, or it panics (an index
    out of range is the only panic the modelled code can raise). *)
Inductive go (A : Type) : Type :=
| Return (a : A)
| Panics (msg : string).
Arguments Return {A} a.
Arguments Panics {A} msg.

(** [peer.Info] / [info.Peer]: the two fields the code reads. *)
Record Peer : Type := mkPeer {
  peer_ID : NodeID;
  PublicIP : AddrPort
}.

(** [warp.Validator]. [Weight] is a [uint64]. *)
Record Validator : Type := mkValidator {
  PublicKeyBytes : list N;
  Weight : Z;
  NodeIDs : list NodeID
}.

(** [libPeers.ConnectedCanonicalValidators]. *)
Record ConnectedCanonicalValidators : Type := mkConnected {
  ConnectedWeight : Z;
  TotalValidatorWeight : Z;
  ValidatorSet : list Validator;
  NodeValidatorIndexMap : gmap N nat
}.

(** [uint64] arithmetic wraps around. *)
Definition wrap64 (z : Z) : Z := (z mod 2 ^ 64)%Z.

(** ** Programs over the collaborators

    The methods of [AppRequestNetwork] call the network ([PeerInfo],
    [ManuallyTrack]), the info API ([Peers]), the validator client, the
    logger and the mutex.  A method is a tree of such calls: each node is
    one call, with the rest of the method waiting for its answer. *)
Inductive netOp : Type -> Type :=
| OpLock : netOp unit
| OpUnlock : netOp unit
| OpPeerInfo (nodeIDs : list NodeID) : netOp (list Peer)
| OpPeers : netOp (result (list Peer))
| OpLogError (msg : string) (err : error) : netOp unit
| OpManuallyTrack (nodeID : NodeID) (ip : AddrPort) : netOp unit
| OpGetCurrentCanonicalValidatorSet (subnetID : ID)
    : netOp (result (list Validator * Z)).

Inductive prog (R : Type) : Type :=
| Ret (r : R)
| Vis {X : Type} (op : netOp X) (k : X -> prog R).
Arguments Ret {R} r.
Arguments Vis {R X} op k.

Fixpoint bind {A B : Type} (p : prog A) (f : A -> prog B) : prog B :=
  match p with
  | Ret a => f a
  | Vis op k => Vis op (fun x => bind (k x) f)
  end.

Definition call {X : Type} (op : netOp X) : prog X := Vis op Ret.

Notation "'let*' x ':=' p 'in' q" := (bind p (fun x => q))
  (at level 10, x name, p at level 100, q at level 200, only parsing).
Notation "p ;; q" := (bind p (fun _ => q))
  (at level 100, q at level 200, right associativity, only parsing).

(** ** ConnectPeers *)

(** [return r] under [defer n.lock.Unlock()]. *)
Definition return_unlocking {R : Type} (r : R) : prog R :=
  call OpUnlock ;; Ret r.

(** The loop over the peers of the info API, lines 157-193:
    [trackedNodes] is the set built so far. *)
Fixpoint trackPeers (nodeIDs : gset N) (peers : list Peer)
    (trackedNodes : gset N) : prog (gset N) :=
  match peers with
  | [] => return_unlocking trackedNodes
  | peer :: rest =>
      if decide (peer_ID peer ∈ nodeIDs) then
        let trackedNodes := trackedNodes ∪ {[peer_ID peer]} in
        call (OpManuallyTrack (peer_ID peer) (PublicIP peer)) ;;
        if decide (size trackedNodes = size nodeIDs) then
          return_unlocking trackedNodes
        else trackPeers nodeIDs rest trackedNodes
      else trackPeers nodeIDs rest trackedNodes
  end.

Definition ConnectPeers (nodeIDs : gset N) : prog (gset N) :=
  call OpLock ;;
  let* connectedPeers := call (OpPeerInfo (elements nodeIDs)) in
  if decide (length connectedPeers = size nodeIDs) then
    return_unlocking nodeIDs
  else
    let* r := call OpPeers in
    match r with
    | Err err =>
        call (OpLogError "Failed to get peers" err) ;;
        return_unlocking ∅
    | Ok peers => trackPeers nodeIDs peers ∅
    end.

(** ** ConnectToCanonicalValidators *)

(** Lines 208-213: [nodeValidatorIndexMap[node] = i] for every node of
    the [i]-th validator, in the order of the set. *)
Definition indexNodes (i : nat) (nodes : list NodeID)
    (m : gmap N nat) : gmap N nat :=
  foldl (fun m node => <[node := i]> m) m nodes.

Fixpoint indexValidators (i : nat) (validatorSet : list Validator)
    (m : gmap N nat) : gmap N nat :=
  match validatorSet with
  | [] => m
  | vdr :: rest => indexValidators (S i) rest (indexNodes i (NodeIDs vdr) m)
  end.

Definition nodeValidatorIndexMap (validatorSet : list Validator)
    : gmap N nat :=
  indexValidators 0 validatorSet ∅.

(** Lines 218-221: the keys of the map, as a set. *)
Definition nodeIDsOf (m : gmap N nat) : gset N := dom m.

(** Lines 225-228.  A key missing from a Go map reads as the zero value,
    and an index past the end of the slice panics ([None] here). *)
Definition addWeight (validatorSet : list Validator) (m : gmap N nat)
    (connectedWeight : option Z) (node : NodeID) : option Z :=
  match connectedWeight with
  | None => None
  | Some w =>
      match validatorSet !! default 0 (m !! node) with
      | None => None
      | Some vdr => Some (wrap64 (w + Weight vdr)%Z)
      end
  end.

Definition sumConnectedWeight (validatorSet : list Validator)
    (m : gmap N nat) (connectedNodes : gset N) : option Z :=
  foldl (addWeight validatorSet m) (Some 0%Z) (elements connectedNodes).

Definition ConnectToCanonicalValidators (subnetID : ID)
    : prog (go (result ConnectedCanonicalValidators)) :=
  let* r := call (OpGetCurrentCanonicalValidatorSet subnetID) in
  match r with
  | Err err => Ret (Return (Err err))
  | Ok (validatorSet, totalValidatorWeight) =>
      let m := nodeValidatorIndexMap validatorSet in
      let* connectedNodes := ConnectPeers (nodeIDsOf m) in
      match sumConnectedWeight validatorSet m connectedNodes with
      | None => Ret (Panics "index out of range")
      | Some connectedWeight =>
          Ret (Return (Ok {|
            ConnectedWeight := connectedWeight;
            TotalValidatorWeight := totalValidatorWeight;
            ValidatorSet := validatorSet;
            NodeValidatorIndexMap := m |}))
      end
  end.

(** ** The collaborators and sequential runs *)

(** [network.Network] is an interface; these are the two methods the
    code calls.  [PeerInfo] reads, [ManuallyTrack] changes the network. *)
Class Network (Net : Type) : Type := {
  PeerInfo : Net -> list NodeID -> list Peer;
  ManuallyTrack : Net -> NodeID -> AddrPort -> Net
}.

(** What a method of [AppRequestNetwork] can reach: the network handle,
    the answer of [infoAPI.Peers], and the validator client. *)
Record World (Net : Type) : Type := mkWorld {
  network : Net;
  infoAPI_Peers : result (list Peer);
  validatorClient : ID -> result (list Validator * Z)
}.
Arguments mkWorld {Net} _ _ _.
Arguments network {Net} _.
Arguments infoAPI_Peers {Net} _.
Arguments validatorClient {Net} _ _.

(** The calls of a run, in order. *)
Inductive Event : Type :=
| EvLock
| EvUnlock
| EvPeerInfo (nodeIDs : list NodeID)
| EvPeers
| EvLogError (msg : string)
| EvManuallyTrack (nodeID : NodeID) (ip : AddrPort)
| EvGetCurrentCanonicalValidatorSet (subnetID : ID).

Definition event_of {X : Type} (op : netOp X) : Event :=
  match op with
  | OpLock => EvLock
  | OpUnlock => EvUnlock
  | OpPeerInfo nodeIDs => EvPeerInfo nodeIDs
  | OpPeers => EvPeers
  | OpLogError msg _ => EvLogError msg
  | OpManuallyTrack nodeID ip => EvManuallyTrack nodeID ip
  | OpGetCurrentCanonicalValidatorSet subnetID =>
      EvGetCurrentCanonicalValidatorSet subnetID
  end.

Section Run.
Context {Net : Type} `{!Network Net}.

(** The answer to one call and the world after it.  The mutex is not
    part of the world: one thread alone never waits for it. *)
Definition handle {X : Type} (op : netOp X) (w : World Net)
    : X * World Net :=
  match op in netOp T return T * World Net with
  | OpLock => (tt, w)
  | OpUnlock => (tt, w)
  | OpPeerInfo nodeIDs => (PeerInfo (network w) nodeIDs, w)
  | OpPeers => (infoAPI_Peers w, w)
  | OpLogError _ _ => (tt, w)
  | OpManuallyTrack nodeID ip =>
      (tt, mkWorld (ManuallyTrack (network w) nodeID ip)
             (infoAPI_Peers w) (validatorClient w))
  | OpGetCurrentCanonicalValidatorSet subnetID =>
      (validatorClient w subnetID, w)
  end.

(** A method run by one thread: its result, the world it leaves and
    the calls it made. *)
Fixpoint run {R : Type} (p : prog R) (w : World Net)
    : R * World Net * list Event :=
  match p with
  | Ret r => (r, w, [])
  | Vis op k =>
      let '(x, w') := handle op w in
      let '(r, w'', evs) := run (k x) w' in
      (r, w'', event_of op :: evs)
  end.

Definition result_of {R : Type} (p : prog R) (w : World Net) : R :=
  (run p w).1.1.
Definition world_after {R : Type} (p : prog R) (w : World Net)
    : World Net :=
  (run p w).1.2.
Definition events_of {R : Type} (p : prog R) (w : World Net)
    : list Event :=
  (run p w).2.
End Run.

(** ** A network with a table of live connections

    One implementation of the interface: the peers that finished the
    handshake, and the manual-tracking requests made so far.  As the
    network of avalanchego documents it, [PeerInfo] of an empty request
    describes every connected peer, and of another request the connected
    peers among those asked for.  Tracking starts a handshake; it does
    not finish one. *)
Record P2P : Type := mkP2P {
  connectedPeers : list Peer;
  trackedPeers : list (NodeID * AddrPort)
}.

#[export] Instance p2p_network : Network P2P := {|
  PeerInfo net nodeIDs :=
    match nodeIDs with
    | [] => connectedPeers net
    | _ => filter (fun p => peer_ID p ∈ nodeIDs) (connectedPeers net)
    end;
  ManuallyTrack net nodeID ip :=
    mkP2P (connectedPeers net) (trackedPeers net ++ [(nodeID, ip)])
|}.

(** A node is connected when the table has a connection to it; the
    table holds one connection per node. *)
Definition connectedTo (net : P2P) (nodeID : NodeID) : Prop :=
  nodeID ∈ peer_ID <$> connectedPeers net.

Definition oneConnectionPerNode (net : P2P) : Prop :=
  NoDup (peer_ID <$> connectedPeers net).

Definition ip_of (n : N) : AddrPort := (n, 9651%N).
Definition peer_at (n : N) : Peer := mkPeer n (ip_of n).

(** ** Ghost definitions for the loop of ConnectPeers *)

(** The entries of the peer list that are asked for, the calls that track
    them and the network after those calls. *)
Definition requested (nodeIDs : gset N) (peers : list Peer) : list Peer :=
  filter (fun p => peer_ID p ∈ nodeIDs) peers.

Definition trackEvents (peers : list Peer) : list Event :=
  (fun p => EvManuallyTrack (peer_ID p) (PublicIP p)) <$> peers.

Definition trackAll {Net : Type} `{!Network Net} (net : Net)
    (peers : list Peer) : Net :=
  foldl (fun net p => ManuallyTrack net (peer_ID p) (PublicIP p)) net peers.

Definition idsOf (peers : list Peer) : gset N :=
  list_to_set (peer_ID <$> peers).

(** How many entries of the peer list the loop goes through before it
    returns. *)
Fixpoint iterations (nodeIDs : gset N) (peers : list Peer)
    (trackedNodes : gset N) : nat :=
  match peers with
  | [] => 0
  | peer :: rest =>
      if decide (peer_ID peer ∈ nodeIDs) then
        if decide (size (trackedNodes ∪ {[peer_ID peer]}) = size nodeIDs)
        then 1
        else S (iterations nodeIDs rest (trackedNodes ∪ {[peer_ID peer]}))
      else S (iterations nodeIDs rest trackedNodes)
  end.

(** ** The node-to-validator index, in closed form *)

(** The greatest index of a validator of the set that lists the node. *)
Fixpoint lastOwner (node : NodeID) (validatorSet : list Validator)
    : option nat :=
  match validatorSet with
  | [] => None
  | vdr :: rest =>
      match lastOwner node rest with
      | Some j => Some (S j)
      | None => if decide (node ∈ NodeIDs vdr) then Some 0 else None
      end
  end.

(** The union of the node lists of the validators. *)
Definition allNodeIDs (validatorSet : list Validator) : gset N :=
  list_to_set (validatorSet ≫= NodeIDs).

(** ** The connected weight *)

Definition sumZ (l : list Z) : Z := foldr Z.add 0%Z l.

(** The weight the loop of lines 226-228 adds for one connected node. *)
Definition nodeWeight (validatorSet : list Validator) (m : gmap N nat)
    (node : NodeID) : Z :=
  from_option Weight 0%Z (validatorSet !! default 0 (m !! node)).

(** The connected weight in the words of the specification: the sum of
    the weights of the validators with at least one connected node. *)
Definition weightOfConnectedValidators (validatorSet : list Validator)
    (connectedNodes : gset N) : Z :=
  sumZ (Weight <$>
          filter (fun vdr => Exists (fun node => node ∈ connectedNodes)
                               (NodeIDs vdr))
            validatorSet).

(** ** Concurrent callers

    Several goroutines run methods of the same [AppRequestNetwork]: they
    share its network handle and its mutex.  A configuration holds what
    is left of each method, the mutex (with the thread that locked it),
    the shared world and the calls made so far, each with its thread. *)
Record Config (Net R : Type) : Type := mkConfig {
  threads : list (prog R);
  mutex : option nat;
  shared : World Net;
  history : list (nat * Event)
}.
Arguments mkConfig {Net R} _ _ _ _.
Arguments threads {Net R} _.
Arguments mutex {Net R} _.
Arguments shared {Net R} _.
Arguments history {Net R} _.

(** [sync.Mutex]: [Lock] waits while the mutex is locked, [Unlock] of an
    unlocked mutex is a fatal error, and no other call looks at it.
    [None] is "this call cannot be made now". *)
Definition mutex_after {X : Type} (op : netOp X) (i : nat)
    (mu : option nat) : option (option nat) :=
  match op with
  | OpLock => match mu with None => Some (Some i) | Some _ => None end
  | OpUnlock => match mu with Some _ => Some None | None => None end
  | _ => Some mu
  end.

Definition is_mutex_op {X : Type} (op : netOp X) : bool :=
  match op with
  | OpLock | OpUnlock => true
  | _ => false
  end.

Section Concurrent.
Context {Net : Type} `{!Network Net} {R : Type}.

(** Thread [i] makes its next call. *)
Definition step_thread (i : nat) (c : Config Net R)
    : option (Config Net R) :=
  match threads c !! i with
  | Some (Vis op k) =>
      match mutex_after op i (mutex c) with
      | Some mu =>
          let '(x, w) := handle op (shared c) in
          Some (mkConfig (<[i := k x]> (threads c)) mu w
                  (history c ++ [(i, event_of op)]))
      | None => None
      end
  | _ => None
  end.

(** A schedule names the thread of each step. *)
Fixpoint exec (schedule : list nat) (c : Config Net R)
    : option (Config Net R) :=
  match schedule with
  | [] => Some c
  | i :: rest =>
      match step_thread i c with
      | Some c' => exec rest c'
      | None => None
      end
  end.
End Concurrent.

(** What is left of a critical section: calls that leave the mutex
    alone, then [Unlock], then the return. *)
Inductive in_critical_section {R : Type} : prog R -> Prop :=
| cs_unlock (r : R) (k : unit -> prog R) :
    (forall x, k x = Ret r) -> in_critical_section (Vis OpUnlock k)
| cs_call (X : Type) (op : netOp X) (k : X -> prog R) :
    is_mutex_op op = false ->
    (forall x, in_critical_section (k x)) ->
    in_critical_section (Vis op k).

(** A method that is one critical section: [Lock], then the section. *)
Definition critical_section {R : Type} (p : prog R) : Prop :=
  exists body : unit -> prog R,
    p = Vis OpLock body /\ forall x, in_critical_section (body x).

(** The concurrent calls of ConnectPeers, one per thread. *)
Definition start {Net : Type} (calls : list (gset N)) (w : World Net)
    : Config Net (gset N) :=
  mkConfig (ConnectPeers <$> calls) None w [].

(** The same calls made one after the other, in a given order of the
    threads: the world they leave, their calls and their results. *)
Record Serial (Net : Type) : Type := mkSerial {
  s_world : World Net;
  s_history : list (nat * Event);
  s_results : gmap nat (gset N)
}.
Arguments mkSerial {Net} _ _ _.
Arguments s_world {Net} _.
Arguments s_history {Net} _.
Arguments s_results {Net} _.

Definition serial_call {Net : Type} `{!Network Net} (calls : list (gset N))
    (s : Serial Net) (i : nat) : Serial Net :=
  let '(r, w, evs) := run (ConnectPeers (default ∅ (calls !! i))) (s_world s) in
  mkSerial w (s_history s ++ (pair i <$> evs)) (<[i := r]> (s_results s)).

Definition serial {Net : Type} `{!Network Net} (calls : list (gset N))
    (order : list nat) (w : World Net) : Serial Net :=
  foldl (serial_call calls) (mkSerial w [] ∅) order.

(** A thread that has not started, or has returned. *)
Definition thread_of (nodeIDs : gset N) (returned : option (gset N))
    : prog (gset N) :=
  match returned with
  | Some r => Ret r
  | None => ConnectPeers nodeIDs
  end.

(** A configuration is serialized when some threads, in some order, have
    made their calls one after the other and returned, at most one
    thread is inside its critical section, having made a prefix of the
    calls it would make alone from the world the others left, and the
    other threads have not started. *)
Definition serialized {Net : Type} `{!Network Net} (calls : list (gset N))
    (w0 : World Net) (c : Config Net (gset N)) : Prop :=
  exists order : list nat,
    let s := serial calls order w0 in
    NoDup order /\
    (forall i, i ∈ order <-> is_Some (s_results s !! i)) /\
    (forall i, i ∈ order -> i < length calls) /\
    length (threads c) = length calls /\
    match mutex c with
    | None =>
        shared c = s_world s /\ history c = s_history s /\
        forall i nodeIDs, calls !! i = Some nodeIDs ->
          threads c !! i = Some (thread_of nodeIDs (s_results s !! i))
    | Some i =>
        exists nodeIDs p pre,
          calls !! i = Some nodeIDs /\ s_results s !! i = None /\
          threads c !! i = Some p /\ in_critical_section p /\
          history c = s_history s ++ (pair i <$> pre) /\
          run (ConnectPeers nodeIDs) (s_world s) =
            (let '(r, w, evs) := run p (shared c) in (r, w, pre ++ evs)) /\
          forall j nodeIDs', j ≠ i -> calls !! j = Some nodeIDs' ->
            threads c !! j = Some (thread_of nodeIDs' (s_results s !! j))
    end.

(** ** The signature collection round *)

Module SignatureCollection.

(** Modelled from the spec: the types of the signature collection round
    (section 3), which is not among the sources.  One reply to a signing
    request: the node, the partial signature, an optional error. *)
Record SignatureResponse : Type := mkResponse {
  resp_node : NodeID;
  resp_signature : list N;
  resp_error : option error
}.

(** Modelled from the spec: the final output of a round (section 3). *)
Record AggregateResult : Type := mkAggregate {
  aggregateSignature : list N;
  signers : gset nat;
  achievedWeight : Z;
  totalWeight : Z
}.

(** Modelled from the spec: the failures of a round (section 7). *)
Inductive CollectError : Type :=
| QuorumNotMetError (achieved required : Z)
| AggregationTimeoutError
| AggregationError.

(** Modelled from the spec: the state of a round (section 4.3, step 3):
    the validators that contributed, by index, their summed weight and
    their partial signatures. *)
Record Round : Type := mkRound {
  contributed : gset nat;
  achieved : Z;
  accepted : list (list N)
}.

Definition newRound : Round := mkRound ∅ 0 [].

Section Protocol.
(** The cryptography: verification of a partial signature against a
    public key and a message, and the combination of signatures. *)
Variable verify : list N -> list N -> list N -> bool.
Variable aggregate : list (list N) -> option (list N).

Variable connected : ConnectedCanonicalValidators.
Variable unsignedMessage : list N.

(** Modelled from the spec: the signature collection protocol
    ([CollectSignatures], section 4.3) is not among the sources.
    Step 3, first half: a response counts when it carries no error,
    its node resolves to a validator through the node-to-validator
    index, and its signature verifies against that validator's public
    key and the message. *)
Definition signerOf (resp : SignatureResponse)
    : option (nat * Validator) :=
  match resp_error resp with
  | Some _ => None
  | None =>
      match NodeValidatorIndexMap connected !! resp_node resp with
      | None => None
      | Some i =>
          match ValidatorSet connected !! i with
          | None => None
          | Some vdr =>
              if verify (PublicKeyBytes vdr) unsignedMessage
                   (resp_signature resp)
              then Some (i, vdr) else None
          end
      end
  end.

(** Modelled from the spec: step 3 of section 4.3, second half.  A
    response that does not count is discarded; a validator that has
    already contributed is not counted again; otherwise its bit is
    set and its weight added. *)
Definition accept (st : Round) (resp : SignatureResponse) : Round :=
  match signerOf resp with
  | None => st
  | Some (i, vdr) =>
      if decide (i ∈ contributed st) then st
      else mkRound ({[i]} ∪ contributed st) (achieved st + Weight vdr)
             (accepted st ++ [resp_signature resp])
  end.

(** Modelled from the spec: step 4 of section 4.3.  The round stops
    as soon as the achieved weight reaches the quorum weight, or when
    no response is left (the arrivals are those before the timeout or
    before every request has been answered or has failed). *)
Fixpoint collect (quorumWeight : Z) (st : Round)
    (arrivals : list SignatureResponse) : Round :=
  if decide (quorumWeight ≤ achieved st)%Z then st
  else
    match arrivals with
    | [] => st
    | resp :: rest => collect quorumWeight (accept st resp) rest
    end.

(** Modelled from the spec: [CollectSignatures] of section 4.3 with
    the outcome of step 4 and the combination of section 4.4. *)
Definition CollectSignatures (quorumWeight : Z)
    (arrivals : list SignatureResponse) (timedOut : bool)
    : AggregateResult + CollectError :=
  let st := collect quorumWeight newRound arrivals in
  if decide (quorumWeight ≤ achieved st)%Z then
    match aggregate (accepted st) with
    | Some sig =>
        inl (mkAggregate sig (contributed st) (achieved st)
               (TotalValidatorWeight connected))
    | None => inr AggregationError
    end
  else if timedOut then inr AggregationTimeoutError
  else inr (QuorumNotMetError (achieved st) quorumWeight).

(** The validators whose signatures were received and verified among
    some responses, and the sum of the weights of a set of
    validators. *)
Definition verifiedSigners (resps : list SignatureResponse) : gset nat :=
  list_to_set (fst <$> omap signerOf resps).

Definition weightOf (S : gset nat) : Z :=
  sumZ ((fun i => from_option Weight 0%Z (ValidatorSet connected !! i))
          <$> elements S).

(** The number of responses a round goes through. *)
Fixpoint handled (quorumWeight : Z) (st : Round)
    (arrivals : list SignatureResponse) : nat :=
  if decide (quorumWeight ≤ achieved st)%Z then 0
  else
    match arrivals with
    | [] => 0
    | resp :: rest => S (handled quorumWeight (accept st resp) rest)
    end.
End Protocol.
End SignatureCollection.

(** ** Sample worlds and validator sets *)

(** Worlds to run the code in. *)
Definition no_validators : ID -> result (list Validator * Z) :=
  fun _ => Err "no such subnet".

(** Nodes 1 and 2 are connected; the info API is down. *)
Definition connected_world : World P2P :=
  mkWorld (mkP2P [peer_at 1; peer_at 2] []) (Err "connection refused")
    no_validators.

(** Nothing is connected; the info API knows nodes 2, 3, 1 and 4. *)
Definition directory_world : World P2P :=
  mkWorld (mkP2P [] [])
    (Ok [peer_at 2; peer_at 3; peer_at 1; peer_at 4]) no_validators.

(** Node 5 is connected and known to the info API. *)
Definition live_peer_world : World P2P :=
  mkWorld (mkP2P [peer_at 5] []) (Ok [peer_at 5]) no_validators.

(** A validator with two nodes. *)
Definition twin_validator : Validator := mkValidator [] 10 [1%N; 2%N].

(** Both nodes of the only validator are connected. *)
Definition twin_world : World P2P :=
  mkWorld (mkP2P [peer_at 1; peer_at 2] []) (Err "connection refused")
    (fun _ => Ok ([twin_validator], 10%Z)).

(** Two validators, one node each; nothing is connected and the info API
    is down. *)
Definition two_validators : list Validator :=
  [mkValidator [] 10 [1%N]; mkValidator [] 20 [2%N]].

Definition directory_down_world : World P2P :=
  mkWorld (mkP2P [] []) (Err "connection refused")
    (fun _ => Ok (two_validators, 30%Z)).

(** The same, with the info API up and knowing no peer. *)
Definition directory_empty_world : World P2P :=
  mkWorld (mkP2P [] []) (Ok []) (fun _ => Ok (two_validators, 30%Z)).

(** Node 1 is listed by both validators. *)
Definition shared_node_validators : list Validator :=
  [mkValidator [] 10 [1%N]; mkValidator [] 20 [1%N; 2%N]].

(** That set resolved; nothing is connected yet and the info API knows
    node 1 only. *)
Definition shared_node_world : World P2P :=
  mkWorld (mkP2P [] []) (Ok [peer_at 1])
    (fun _ => Ok (shared_node_validators, 30%Z)).

(** The scenario of the specification: validators A, B and C of weights
    40, 35 and 25, one node each, and a quorum weight of 67.  In this toy
    signature scheme a validator's signature is its public key, and
    signatures are combined by concatenation. *)
Definition toy_verify (publicKey message signature : list N) : bool :=
  bool_decide (signature = publicKey).

Definition toy_aggregate (signatures : list (list N)) : option (list N) :=
  Some (concat signatures).

Definition abc_validators : list Validator :=
  [mkValidator [65%N] 40 [1%N]; mkValidator [66%N] 35 [2%N];
   mkValidator [67%N] 25 [3%N]].

Definition abc_connected : ConnectedCanonicalValidators :=
  mkConnected 100 100 abc_validators (nodeValidatorIndexMap abc_validators).

Definition reply (node key : N) : SignatureCollection.SignatureResponse :=
  SignatureCollection.mkResponse node [key] None.

(** ** The connected weight, node by node *)

(** The nodes of a validator that are connected. *)
Definition connectedNodesOf (connectedNodes : gset N) (vdr : Validator)
    : list NodeID :=
  filter (fun node => node ∈ connectedNodes) (NodeIDs vdr).

(** The weight of every validator, once per connected node of it. *)
Definition weightPerConnectedNode (validatorSet : list Validator)
    (connectedNodes : gset N) : Z :=
  sumZ ((fun vdr =>
           (Z.of_nat (length (connectedNodesOf connectedNodes vdr))
            * Weight vdr)%Z)
          <$> validatorSet).

(** Nothing is connected; the info API knows node 1 only. *)
Definition one_of_two_world : World P2P :=
  mkWorld (mkP2P [] []) (Ok [peer_at 1]) (fun _ => Ok (two_validators, 30%Z)).

(** ** NewNetwork and connectToNonPrimaryNetworkPeers *)

(** [config.APIConfig], by its base URL. *)
Abbreviation APIConfig := string (only parsing).

(** [config.SourceBlockchain] and [config.Config] of the signature
    aggregator: the parts the code reads.  [GetSubnetID] reads the subnet
    of a source blockchain. *)
Module config.
Record SourceBlockchain : Type := mkSourceBlockchain {
  GetSubnetID : ID
}.

Record Config : Type := mkConfig {
  InfoAPI : APIConfig;
  PChainAPI : APIConfig;
  SourceBlockchains : list SourceBlockchain
}.
End config.

(** Lines 252-267.  The connected validators are dropped; only the error
    of ConnectToCanonicalValidators is looked at. *)
Definition connectToNonPrimaryNetworkPeers (cfg : config.Config)
    (sourceBlockchain : config.SourceBlockchain) : prog (go (option error)) :=
  let subnetID := config.GetSubnetID sourceBlockchain in
  let* r := ConnectToCanonicalValidators subnetID in
  match r with
  | Panics msg => Ret (Panics msg)
  | Return (Err err) =>
      call (OpLogError "Failed to connect to canonical validators" err) ;;
      Ret (Return (Some err))
  | Return (Ok _) => Ret (Return None)
  end.

(** The objects NewNetwork creates are known by a reference. *)
Abbreviation Ref := N (only parsing).

(** [AppRequestNetwork] (the logger and the lock are created in place). *)
Record AppRequestNetwork : Type := mkAppRequestNetwork {
  arn_network : Ref;
  arn_handler : Ref;
  arn_infoAPI : Ref;
  arn_validatorClient : Ref
}.

(** The calls of NewNetwork: the constructors of the collaborators, the
    start of the dispatch goroutine, and the calls of the methods of the
    new [AppRequestNetwork]. *)
Inductive setupOp : Type -> Type :=
| OpNewRelayerExternalHandler (registerer : Ref) : setupOp (result Ref)
| OpNewInfoAPI (api : APIConfig) : setupOp (result Ref)
| OpGetNetworkID : setupOp (result N)
| OpNewTestNetwork (networkID : N) (trackedSubnets : gset N)
    (handler : Ref) : setupOp (result Ref)
| OpNewCanonicalValidatorClient (api : APIConfig) : setupOp Ref
| OpGoDispatch (network : Ref) : setupOp unit
| OpNet {X : Type} (op : netOp X) : setupOp X.

Inductive setup (R : Type) : Type :=
| SRet (r : R)
| SVis {X : Type} (op : setupOp X) (k : X -> setup R).
Arguments SRet {R} r.
Arguments SVis {R X} op k.

Fixpoint sbind {A B : Type} (p : setup A) (f : A -> setup B) : setup B :=
  match p with
  | SRet a => f a
  | SVis op k => SVis op (fun x => sbind (k x) f)
  end.

Definition scall {X : Type} (op : setupOp X) : setup X := SVis op SRet.

(** A method of the new [AppRequestNetwork] run inside NewNetwork. *)
Fixpoint method {R : Type} (p : prog R) : setup R :=
  match p with
  | Ret r => SRet r
  | Vis op k => SVis (OpNet op) (fun x => method (k x))
  end.

Definition logError (msg : string) (err : error) : setup unit :=
  scall (OpNet (OpLogError msg err)).

(** Lines 83-86: the subnets of the source blockchains. *)
Definition trackedSubnetsOf (sourceBlockchains : list config.SourceBlockchain)
    : gset N :=
  foldl (fun trackedSubnets sourceBlockchain =>
           trackedSubnets ∪ {[config.GetSubnetID sourceBlockchain]})
    ∅ sourceBlockchains.

(** Lines 112-116: connect to the validators of each source blockchain,
    returning at the first error. *)
Fixpoint connectAll (cfg : config.Config)
    (sourceBlockchains : list config.SourceBlockchain)
    : setup (go (option error)) :=
  match sourceBlockchains with
  | [] => SRet (Return None)
  | sourceBlockchain :: rest =>
      sbind (method (connectToNonPrimaryNetworkPeers cfg sourceBlockchain))
        (fun r =>
           match r with
           | Return None => connectAll cfg rest
           | _ => SRet r
           end)
  end.

Definition NewNetwork (registerer : Ref) (cfg : config.Config)
    : setup (go (result AppRequestNetwork)) :=
  sbind (scall (OpNewRelayerExternalHandler registerer)) (fun r =>
  match r with
  | Err err =>
      sbind (logError "Failed to create p2p network handler" err) (fun _ =>
      SRet (Return (Err err)))
  | Ok handler =>
  sbind (scall (OpNewInfoAPI (config.InfoAPI cfg))) (fun r =>
  match r with
  | Err err =>
      sbind (logError "Failed to create info API" err) (fun _ =>
      SRet (Return (Err err)))
  | Ok infoAPI =>
  sbind (scall OpGetNetworkID) (fun r =>
  match r with
  | Err err =>
      sbind (logError "Failed to get network ID" err) (fun _ =>
      SRet (Return (Err err)))
  | Ok networkID =>
  let trackedSubnets := trackedSubnetsOf (config.SourceBlockchains cfg) in
  sbind (scall (OpNewTestNetwork networkID trackedSubnets handler)) (fun r =>
  match r with
  | Err err =>
      sbind (logError "Failed to create test network" err) (fun _ =>
      SRet (Return (Err err)))
  | Ok testNetwork =>
  sbind (scall (OpNewCanonicalValidatorClient (config.PChainAPI cfg)))
    (fun validatorClient =>
  let arNetwork :=
    mkAppRequestNetwork testNetwork handler infoAPI validatorClient in
  sbind (connectAll cfg (config.SourceBlockchains cfg)) (fun r =>
  match r with
  | Panics msg => SRet (Panics msg)
  | Return (Some err) => SRet (Return (Err err))
  | Return None =>
      sbind (scall (OpGoDispatch testNetwork)) (fun _ =>
      SRet (Return (Ok arNetwork)))
  end))
  end)
  end)
  end)
  end).

(** What the constructors answer, with the world the methods run in, and
    whether the dispatch goroutine has been started. *)
Record SetupWorld (Net : Type) : Type := mkSetupWorld {
  newHandler : Ref -> result Ref;
  newInfoAPI : APIConfig -> result Ref;
  getNetworkID : result N;
  newTestNetwork : N -> gset N -> Ref -> result Ref;
  newValidatorClient : APIConfig -> Ref;
  dispatching : bool;
  methods_world : World Net
}.
Arguments mkSetupWorld {Net} _ _ _ _ _ _ _.
Arguments newHandler {Net} _ _.
Arguments newInfoAPI {Net} _ _.
Arguments getNetworkID {Net} _.
Arguments newTestNetwork {Net} _ _ _ _.
Arguments newValidatorClient {Net} _ _.
Arguments dispatching {Net} _.
Arguments methods_world {Net} _.

Inductive SetupEvent : Type :=
| SEvNewRelayerExternalHandler (registerer : Ref)
| SEvNewInfoAPI (api : APIConfig)
| SEvGetNetworkID
| SEvNewTestNetwork (networkID : N) (trackedSubnets : gset N) (handler : Ref)
| SEvNewCanonicalValidatorClient (api : APIConfig)
| SEvGoDispatch (network : Ref)
| SEvNet (ev : Event).

Definition setup_event_of {X : Type} (op : setupOp X) : SetupEvent :=
  match op with
  | OpNewRelayerExternalHandler registerer =>
      SEvNewRelayerExternalHandler registerer
  | OpNewInfoAPI api => SEvNewInfoAPI api
  | OpGetNetworkID => SEvGetNetworkID
  | OpNewTestNetwork networkID trackedSubnets handler =>
      SEvNewTestNetwork networkID trackedSubnets handler
  | OpNewCanonicalValidatorClient api => SEvNewCanonicalValidatorClient api
  | OpGoDispatch network => SEvGoDispatch network
  | OpNet op => SEvNet (event_of op)
  end.

Section RunSetup.
Context {Net : Type} `{!Network Net}.

Definition with_methods_world (sw : SetupWorld Net) (w : World Net)
    : SetupWorld Net :=
  mkSetupWorld (newHandler sw) (newInfoAPI sw) (getNetworkID sw)
    (newTestNetwork sw) (newValidatorClient sw) (dispatching sw) w.

Definition setup_handle {X : Type} (op : setupOp X) (sw : SetupWorld Net)
    : X * SetupWorld Net :=
  match op in setupOp T return T * SetupWorld Net with
  | OpNewRelayerExternalHandler registerer => (newHandler sw registerer, sw)
  | OpNewInfoAPI api => (newInfoAPI sw api, sw)
  | OpGetNetworkID => (getNetworkID sw, sw)
  | OpNewTestNetwork networkID trackedSubnets handler =>
      (newTestNetwork sw networkID trackedSubnets handler, sw)
  | OpNewCanonicalValidatorClient api => (newValidatorClient sw api, sw)
  | OpGoDispatch _ =>
      (tt, mkSetupWorld (newHandler sw) (newInfoAPI sw) (getNetworkID sw)
             (newTestNetwork sw) (newValidatorClient sw) true
             (methods_world sw))
  | OpNet op =>
      let '(x, w) := handle op (methods_world sw) in
      (x, with_methods_world sw w)
  end.

Fixpoint run_setup {R : Type} (p : setup R) (sw : SetupWorld Net)
    : R * SetupWorld Net * list SetupEvent :=
  match p with
  | SRet r => (r, sw, [])
  | SVis op k =>
      let '(x, sw') := setup_handle op sw in
      let '(r, sw'', evs) := run_setup (k x) sw' in
      (r, sw'', setup_event_of op :: evs)
  end.
End RunSetup.

(** The world once the dispatch goroutine is started. *)
Definition started {Net : Type} (sw : SetupWorld Net) : SetupWorld Net :=
  mkSetupWorld (newHandler sw) (newInfoAPI sw) (getNetworkID sw)
    (newTestNetwork sw) (newValidatorClient sw) true (methods_world sw).

(** The first of some subnets whose validator set cannot be resolved: its
    position and the error. *)
Fixpoint firstFailure (resolve : ID -> result (list Validator * Z))
    (subnets : list ID) : option (nat * error) :=
  match subnets with
  | [] => None
  | subnetID :: rest =>
      match resolve subnetID with
      | Err err => Some (0, err)
      | Ok _ =>
          match firstFailure resolve rest with
          | Some (k, err) => Some (S k, err)
          | None => None
          end
      end
  end.

(** The subnets whose validator set a run of NewNetwork asked for. *)
Definition resolvedSubnets (evs : list SetupEvent) : list ID :=
  omap (fun ev =>
          match ev with
          | SEvNet (EvGetCurrentCanonicalValidatorSet subnetID) =>
              Some subnetID
          | _ => None
          end) evs.

(** A configuration with two source blockchains, on subnets 7 and 8. *)
Definition two_sources : config.Config :=
  config.mkConfig "http://127.0.0.1:9650" "http://127.0.0.1:9650"
    [config.mkSourceBlockchain 7; config.mkSourceBlockchain 8].

(** Subnet 8 cannot be resolved; nothing is connected and the info API
    does not answer the peer query. *)
Definition subnet8_unknown_world : World P2P :=
  mkWorld (mkP2P [] []) (Err "connection refused")
    (fun subnetID =>
       if decide (subnetID = 8%N) then Err "no such subnet"
       else Ok (two_validators, 30%Z)).

(** Every constructor succeeds. *)
Definition constructors_ok (w : World P2P) : SetupWorld P2P :=
  mkSetupWorld (fun _ => Ok 1%N) (fun _ => Ok 2%N) (Ok 5%N)
    (fun _ _ _ => Ok 3%N) (fun _ => 4%N) false w.

(** The info API does not give its network ID. *)
Definition no_network_id (w : World P2P) : SetupWorld P2P :=
  mkSetupWorld (fun _ => Ok 1%N) (fun _ => Ok 2%N) (Err "timeout")
    (fun _ _ _ => Ok 3%N) (fun _ => 4%N) false w.

(** ** The Chainlink message protocol

    The second part of the source file: package [chainlink], the decoder
    of price-update logs and the handler that sends them on. *)
Module chainlink.

(** [common.Address] (20 bytes) and [common.Hash] (32 bytes), each the
    number its bytes spell; byte slices. *)
Abbreviation Address := N (only parsing).
Abbreviation Hash := N (only parsing).
Abbreviation Bytes := (list N) (only parsing).

(** The [Config] of the package: the fields the code reads. *)
Record Config : Type := mkConfig {
  AggregatorsToReplicas : gmap N N;
  DestinationBlockchainID : ID;
  MaxFilterAdresses : Z
}.

(** [config.MessageProtocolConfig]: the settings, by their JSON text. *)
Record MessageProtocolConfig : Type := mkMessageProtocolConfig {
  MessageFormat : string;
  Settings : gmap string string
}.

Record ChainlinkMessage : Type := mkChainlinkMessage {
  aggregator : Address;
  blockHeader : Bytes;
  txIndex : option Z;
  receiptProof : list Bytes;
  logIndex : option Z;
  current : option Z;
  roundId : option Z;
  updatedAt : option Z;
  data : Bytes
}.

(** [warp.UnsignedMessage] and [warp.Message]. *)
Record UnsignedMessage : Type := mkUnsignedMessage {
  NetworkID : N;
  SourceChainID : ID;
  Payload : Bytes
}.

Record Message : Type := mkMessage {
  Unsigned : UnsignedMessage;
  Signature : Bytes
}.

(** [relayerTypes.WarpMessageInfo]. *)
Record WarpMessageInfo : Type := mkWarpMessageInfo {
  SourceAddress : Address;
  wmi_UnsignedMessage : UnsignedMessage
}.

(** [subnetTypes.Log] and [subnetTypes.Header]: the fields the code
    reads. *)
Record Log : Type := mkLog {
  log_Address : Address;
  Topics : list Hash;
  Data : Bytes;
  BlockHash : Hash
}.

Record Header : Type := mkHeader {
  Bloom : N;
  Number : Z
}.

(** [subnetInterfaces.FilterQuery]. *)
Record FilterQuery : Type := mkFilterQuery {
  q_Topics : list (list Hash);
  q_Addresses : list Address;
  FromBlock : Z;
  ToBlock : Z
}.

Record ChainlinkMessageDecoder : Type := mkDecoder {
  decoder_aggregators : list Address
}.

Record factory : Type := mkFactory {
  factory_config : Config
}.

Record ChainlinkMessageHandler : Type := mkHandler {
  unsignedMessage : UnsignedMessage;
  destinationBlockchainID : ID;
  maxFilterAdresses : Z;
  aggregatorsToReplicas : gmap N N;
  aggregators : list Address
}.

Definition ChainlinkPriceUpdatedFilter : Hash :=
  0x0559884fd3a460db3073b7fc896cc77986f16e378210ded43186175bf646fc5f%N.

(** The zero value of [common.Address] and of [common.Hash]. *)
Definition zeroAddress : Address := 0%N.
Definition zeroHash : Hash := 0%N.

(** The libraries the package calls and that compute: JSON, RLP, the
    warp codec, the bloom filter, the ABI packer, the text of addresses
    and the sentinel error of a malformed log. *)
Class Libraries : Type := {
  RawConfig : Type;
  json_Marshal_Settings : gmap string string -> result Bytes;
  json_Unmarshal_RawConfig : Bytes -> result RawConfig;
  RawConfig_Parse : RawConfig -> result Config;
  Bloom_Test : N -> Hash -> bool;
  rlp_EncodeToBytes : N -> result Bytes;
  json_Marshal : ChainlinkMessage -> result Bytes;
  json_Unmarshal : Bytes -> result ChainlinkMessage;
  warp_ParseUnsignedMessage : Bytes -> result UnsignedMessage;
  PackImportEvent :
    Bytes -> option Z -> list Bytes -> option Z -> result Bytes;
  Address_Hex : Address -> string;
  Address_String : Address -> string;
  ErrInvalidLog : error
}.

(** The calls on the chains and on the logger.  A block is known by a
    reference; [OpFilterLogs] is [FilterLogs] under
    [utils.CallWithRetry]. *)
Inductive chainOp : Type -> Type :=
| OpFilterLogs (q : FilterQuery) : chainOp (result (list Log))
| OpBlockByHash (blockHash : Hash) : chainOp (result N)
| OpSendTx (signedMessage : Message) (toAddress : string) (gasLimit : Z)
    (callData : Bytes) : chainOp (result Hash)
| OpWaitForReceipt (signedMessage : Message) (txHash : Hash)
    (teleporterMessageID : ID) : chainOp (option error)
| OpInfo (msg : string) : chainOp unit
| OpError (msg : string) : chainOp unit.

Inductive task (R : Type) : Type :=
| Done (r : R)
| Call {X : Type} (op : chainOp X) (k : X -> task R).
Arguments Done {R} r.
Arguments Call {R X} op k.

Fixpoint andThen {A B : Type} (p : task A) (f : A -> task B) : task B :=
  match p with
  | Done a => f a
  | Call op k => Call op (fun x => andThen (k x) f)
  end.

Definition perform {X : Type} (op : chainOp X) : task X := Call op Done.

Section Package.
Context `{!Libraries}.

(** Lines 433-449. *)
Definition ParseConfig (messageProtocolConfig : MessageProtocolConfig)
    : result Config :=
  match json_Marshal_Settings (Settings messageProtocolConfig) with
  | Err err => Err ("Failed to marshal Teleporter config: " +:+ err)
  | Ok data =>
      match json_Unmarshal_RawConfig data with
      | Err err => Err ("Failed to unmarshal Teleporter config: " +:+ err)
      | Ok messageConfig =>
          match RawConfig_Parse messageConfig with
          | Err err => Err err
          | Ok config => Ok config
          end
      end
  end.

(** [make([]common.Address, n)] followed by one [append] per key of the
    map (lines 333-336 and 468-471). *)
Definition collectAggregators (aggregatorsToReplicas : gmap N N)
    : list Address :=
  foldl (fun aggregators aggregator => aggregators ++ [aggregator])
    (replicate (size aggregatorsToReplicas) zeroAddress)
    (fst <$> map_to_list aggregatorsToReplicas).

(** Lines 328-343.  The second test of [err] cannot fire. *)
Definition NewMessageDecoder (messageProtocolConfig : MessageProtocolConfig)
    : result ChainlinkMessageDecoder :=
  match ParseConfig messageProtocolConfig with
  | Err err => Err err
  | Ok cfg => Ok (mkDecoder (collectAggregators (AggregatorsToReplicas cfg)))
  end.

(** Lines 425-431. *)
Definition ConvertToUnsignedMessage (msg : ChainlinkMessage)
    : result UnsignedMessage :=
  match json_Marshal msg with
  | Err err => Err err
  | Ok bytes => warp_ParseUnsignedMessage bytes
  end.

(** [Hash.Big]. *)
Definition Big (h : Hash) : option Z := Some (Z.of_N h).

(** Lines 384-423.  After the test of their number the topics are read
    by index; [common.BytesToAddress] of the 20 bytes of an address is
    that address. *)
Definition NewWarpMessageInfo (log : Log) : task (result WarpMessageInfo) :=
  if decide (length (Topics log) ≠ 4) then Done (Err ErrInvalidLog)
  else if decide (Topics log !!! 0 ≠ ChainlinkPriceUpdatedFilter) then
    Done (Err ErrInvalidLog)
  else
    andThen (perform (OpBlockByHash (BlockHash log))) (fun r =>
    match r with
    | Err err => Done (Err err)
    | Ok block =>
        match rlp_EncodeToBytes block with
        | Err err => Done (Err err)
        | Ok blockHeader =>
            let msg :=
              mkChainlinkMessage (log_Address log) blockHeader None [] None
                (Big (Topics log !!! 1)) (Big (Topics log !!! 2))
                (Big (Topics log !!! 3)) (Data log) in
            match ConvertToUnsignedMessage msg with
            | Err err => Done (Err err)
            | Ok unsignedMsg =>
                Done (Ok (mkWarpMessageInfo (log_Address log) unsignedMsg))
            end
        end
    end).

(** The loop of lines 372-379: [messages] is a slice of pointers, nil
    until they are set. *)
Fixpoint decodeLogs (i : nat) (logs : list Log)
    (messages : list (option WarpMessageInfo))
    : task (result (list (option WarpMessageInfo))) :=
  match logs with
  | [] => Done (Ok messages)
  | log :: rest =>
      andThen (NewWarpMessageInfo log) (fun r =>
      match r with
      | Err err => Done (Err err)
      | Ok warpLog => decodeLogs (S i) rest (<[i := Some warpLog]> messages)
      end)
  end.

(** Lines 345-382. *)
Definition Decode (c : ChainlinkMessageDecoder) (header : Header)
    : task (result (list (option WarpMessageInfo))) :=
  andThen
    (if Bloom_Test (Bloom header) ChainlinkPriceUpdatedFilter then
       perform (OpFilterLogs
                  (mkFilterQuery [[ChainlinkPriceUpdatedFilter]]
                     (decoder_aggregators c) (Number header) (Number header)))
     else Done (Ok []))
    (fun r =>
       match r with
       | Err err => Done (Err err)
       | Ok logs => decodeLogs 0 logs (replicate (length logs) None)
       end).

(** Lines 451-464. *)
Definition NewMessageHandlerFactory
    (messageProtocolConfig : MessageProtocolConfig) : result factory :=
  match ParseConfig messageProtocolConfig with
  | Err err => Err err
  | Ok config => Ok (mkFactory config)
  end.

(** Lines 466-481. *)
Definition NewMessageHandler (f : factory) (unsignedMessage : UnsignedMessage)
    : result ChainlinkMessageHandler :=
  let aggregatorsToReplicas := AggregatorsToReplicas (factory_config f) in
  Ok (mkHandler unsignedMessage (DestinationBlockchainID (factory_config f))
        (MaxFilterAdresses (factory_config f)) aggregatorsToReplicas
        (collectAggregators aggregatorsToReplicas)).

(** Lines 483-485. *)
Definition CalculateImportEventGasLimit : Z * option error := (0%Z, None).

(** Lines 487-489. *)
Definition ShouldSendMessage (c : ChainlinkMessageHandler)
    : bool * option error :=
  (true, None).

(** Lines 491-566.  [ids.Empty] is the zero identifier. *)
Definition SendMessage (c : ChainlinkMessageHandler)
    (signedMessage : Message) : task (Hash * option error) :=
  andThen (perform (OpInfo "Sending message to destination chain")) (fun _ =>
  let '(gasLimit, err) := CalculateImportEventGasLimit in
  match err with
  | Some err =>
      andThen (perform (OpError
        "Failed to calculate gas limit for receiveCrossChainMessage call"))
        (fun _ => Done (zeroHash, Some err))
  | None =>
  match json_Unmarshal (Payload (Unsigned signedMessage)) with
  | Err err => Done (zeroHash, Some err)
  | Ok msg =>
  match PackImportEvent (blockHeader msg) (txIndex msg) (receiptProof msg)
          (logIndex msg) with
  | Err err =>
      andThen (perform (OpError "Failed packing importEvent call data"))
        (fun _ => Done (zeroHash, Some err))
  | Ok callData =>
  match aggregatorsToReplicas c !! aggregator msg with
  | None =>
      andThen (perform (OpError "Failed to find replica for aggregator"))
        (fun _ =>
           Done (zeroHash,
                 Some ("failed to find replica for aggregator: "
                         +:+ Address_String (aggregator msg))))
  | Some replica =>
  andThen (perform (OpSendTx signedMessage (Address_Hex replica) gasLimit
                      callData)) (fun r =>
  match r with
  | Err err =>
      andThen (perform (OpError "Failed to send tx."))
        (fun _ => Done (zeroHash, Some err))
  | Ok txHash =>
  andThen (perform (OpWaitForReceipt signedMessage txHash 0%N)) (fun err =>
  match err with
  | Some err => Done (zeroHash, Some err)
  | None =>
      andThen (perform (OpInfo "Delivered message to destination chain"))
        (fun _ => Done (txHash, None))
  end)
  end)
  end
  end
  end
  end).

(** Lines 568-592. *)
Definition GetMessageRoutingInfo (c : ChainlinkMessageHandler)
    (warpMessageInfo : WarpMessageInfo)
    : ID * Address * ID * Address * option error :=
  match json_Unmarshal (Payload (wmi_UnsignedMessage warpMessageInfo)) with
  | Err err => (0%N, zeroAddress, 0%N, zeroAddress, Some err)
  | Ok msg =>
      match aggregatorsToReplicas c !! aggregator msg with
      | None =>
          (0%N, zeroAddress, 0%N, zeroAddress,
           Some ("replica not found for aggregator "
                   +:+ Address_String (aggregator msg)))
      | Some replica =>
          (SourceChainID (unsignedMessage c), SourceAddress warpMessageInfo,
           destinationBlockchainID c, replica, None)
      end
  end.

(** Lines 594-596. *)
Definition GetUnsignedMessage (c : ChainlinkMessageHandler)
    : UnsignedMessage :=
  unsignedMessage c.
End Package.

(** What the chains answer: the logs a query finds, the blocks by hash,
    the outcome of sending a transaction and of waiting for its
    receipt. *)
Record Chains : Type := mkChains {
  filterLogs : FilterQuery -> result (list Log);
  blockByHash : Hash -> result N;
  sendTx : Message -> string -> Z -> Bytes -> result Hash;
  waitForReceipt : Message -> Hash -> ID -> option error
}.

Inductive ChainEvent : Type :=
| EvFilterLogs (q : FilterQuery)
| EvBlockByHash (blockHash : Hash)
| EvSendTx (signedMessage : Message) (toAddress : string) (gasLimit : Z)
    (callData : Bytes)
| EvWaitForReceipt (signedMessage : Message) (txHash : Hash)
    (teleporterMessageID : ID)
| EvInfo (msg : string)
| EvError (msg : string).

Definition chain_event_of {X : Type} (op : chainOp X) : ChainEvent :=
  match op with
  | OpFilterLogs q => EvFilterLogs q
  | OpBlockByHash blockHash => EvBlockByHash blockHash
  | OpSendTx signedMessage toAddress gasLimit callData =>
      EvSendTx signedMessage toAddress gasLimit callData
  | OpWaitForReceipt signedMessage txHash teleporterMessageID =>
      EvWaitForReceipt signedMessage txHash teleporterMessageID
  | OpInfo msg => EvInfo msg
  | OpError msg => EvError msg
  end.

Definition answer {X : Type} (op : chainOp X) (ch : Chains) : X :=
  match op in chainOp T return T with
  | OpFilterLogs q => filterLogs ch q
  | OpBlockByHash blockHash => blockByHash ch blockHash
  | OpSendTx signedMessage toAddress gasLimit callData =>
      sendTx ch signedMessage toAddress gasLimit callData
  | OpWaitForReceipt signedMessage txHash teleporterMessageID =>
      waitForReceipt ch signedMessage txHash teleporterMessageID
  | OpInfo _ => tt
  | OpError _ => tt
  end.

(** A task run against the chains: its result and its calls. *)
Fixpoint exec_task {R : Type} (p : task R) (ch : Chains)
    : R * list ChainEvent :=
  match p with
  | Done r => (r, [])
  | Call op k =>
      let '(r, evs) := exec_task (k (answer op ch)) ch in
      (r, chain_event_of op :: evs)
  end.

(** The transactions among some calls. *)
Definition is_SendTx (ev : ChainEvent) : bool :=
  match ev with
  | EvSendTx _ _ _ _ => true
  | _ => false
  end.

Section Ghost.
Context `{!Libraries}.

(** What NewWarpMessageInfo returns for a log, and the calls of Decode
    for some logs. *)
Definition infoOf (ch : Chains) (log : Log) : result WarpMessageInfo :=
  (exec_task (NewWarpMessageInfo log) ch).1.

Definition fetched (ch : Chains) (logs : list Log) : list ChainEvent :=
  logs ≫= (fun log => (exec_task (NewWarpMessageInfo log) ch).2).

(** The position of the first log NewWarpMessageInfo fails on. *)
Fixpoint firstBad (ch : Chains) (logs : list Log) : option nat :=
  match logs with
  | [] => None
  | log :: rest =>
      match infoOf ch log with
      | Err _ => Some 0
      | Ok _ => S <$> firstBad ch rest
      end
  end.

(** The query Decode makes. *)
Definition queryOf (c : ChainlinkMessageDecoder) (header : Header)
    : FilterQuery :=
  mkFilterQuery [[ChainlinkPriceUpdatedFilter]] (decoder_aggregators c)
    (Number header) (Number header).
End Ghost.

End chainlink.

(** Toy libraries to run the package with: a message is marshalled as its
    aggregator followed by its data, every bloom filter but 0 has every
    topic, and a block encodes as its reference. *)
#[export] Instance toy_libraries : chainlink.Libraries := {|
  chainlink.RawConfig := gmap N N;
  chainlink.json_Marshal_Settings := fun _ => Ok [];
  chainlink.json_Unmarshal_RawConfig := fun _ => Ok {[5%N := 77%N]};
  chainlink.RawConfig_Parse := fun m => Ok (chainlink.mkConfig m 9 10);
  chainlink.Bloom_Test := fun bloom _ => bool_decide (bloom ≠ 0%N);
  chainlink.rlp_EncodeToBytes := fun block => Ok [block];
  chainlink.json_Marshal :=
    fun msg => Ok (chainlink.aggregator msg :: chainlink.data msg);
  chainlink.json_Unmarshal :=
    fun bytes =>
      match bytes with
      | a :: d =>
          Ok (chainlink.mkChainlinkMessage a [] None [] None None None None d)
      | [] => Err "unexpected end of JSON input"
      end;
  chainlink.warp_ParseUnsignedMessage :=
    fun bytes => Ok (chainlink.mkUnsignedMessage 1 2 bytes);
  chainlink.PackImportEvent := fun blockHeader _ _ _ => Ok blockHeader;
  chainlink.Address_Hex :=
    fun a => if decide (a = 77%N) then "0x4d" else "0x00";
  chainlink.Address_String :=
    fun a => if decide (a = 77%N) then "0x4d" else "0x00";
  chainlink.ErrInvalidLog := "invalid warp message log"
|}.

(** A price-update log of aggregator 5, and a log with no topic. *)
Definition price_log (blockHash : N) : chainlink.Log :=
  chainlink.mkLog 5 [chainlink.ChainlinkPriceUpdatedFilter; 100%N; 7%N; 1700%N]
    [1%N; 2%N] blockHash.

Definition bare_log : chainlink.Log := chainlink.mkLog 5 [] [] 0.

(** Chains whose query finds the given logs, where every block is found,
    every transaction is sent with hash 1234 and every receipt comes. *)
Definition chains_with (logs : list chainlink.Log) : chainlink.Chains :=
  chainlink.mkChains (fun _ => Ok logs) (fun blockHash => Ok blockHash)
    (fun _ _ _ _ => Ok 1234%N) (fun _ _ _ => None).

Definition sample_decoder : chainlink.ChainlinkMessageDecoder :=
  chainlink.mkDecoder [0%N; 5%N].

Definition sample_header : chainlink.Header := chainlink.mkHeader 1 42.

(** A handler that knows replica 77 of aggregator 5, and a signed
    message of that aggregator. *)
Definition sample_handler : chainlink.ChainlinkMessageHandler :=
  chainlink.mkHandler (chainlink.mkUnsignedMessage 1 2 []) 9 10
    {[5%N := 77%N]} [0%N; 5%N].

Definition sample_message : chainlink.Message :=
  chainlink.mkMessage (chainlink.mkUnsignedMessage 1 2 [5%N; 1%N; 2%N]) [].

(** ** The test utilities: ReadHexTextFile *)

Module testutils.

Definition newline : Ascii.ascii := Ascii.ascii_of_nat 10.

(** [strings.TrimRight] for a cut set of ASCII characters, as here: the
    string without its trailing characters of the cut set. *)
Fixpoint TrimRight (s : string) (cutset : list Ascii.ascii) : string :=
  match s with
  | EmptyString => EmptyString
  | String c rest =>
      match TrimRight rest cutset with
      | EmptyString =>
          if decide (c ∈ cutset) then EmptyString else String c EmptyString
      | trimmed => String c trimmed
      end
  end.

(** Lines 98-102 of [tests/utils/utils.go].  [readFile] is [os.ReadFile];
    a failed expectation of gomega stops the test, as a panic does. *)
Definition ReadHexTextFile (readFile : string -> result string)
    (filename : string) : go string :=
  match readFile filename with
  | Err err => Panics ("Expected nil, got: " +:+ err)
  | Ok fileData => Return (TrimRight fileData [newline])
  end.

(** A string of newlines. *)
Fixpoint newlines (n : nat) : string :=
  match n with
  | 0 => EmptyString
  | S n => String newline (newlines n)
  end.

End testutils.

(** ** Sequential runs: general facts *)

Section RunFacts.
Context {Net : Type} `{!Network Net}.

Lemma run_bind {A B : Type} (p : prog A) (f : A -> prog B) (w : World Net) :
  run (bind p f) w =
    (let '(a, w1, evs1) := run p w in
     let '(b, w2, evs2) := run (f a) w1 in
     (b, w2, evs1 ++ evs2)).
Proof.
  revert w. induction p as [a | X op k IH]; intros w; simpl.
  - destruct (run (f a) w) as [[b w2] evs2]. reflexivity.
  - destruct (handle op w) as [x w1]. rewrite IH.
    destruct (run (k x) w1) as [[a w2] evs1].
    destruct (run (f a) w2) as [[b w3] evs2]. reflexivity.
Qed.

Lemma run_return_unlocking {R : Type} (r : R) (w : World Net) :
  run (return_unlocking r) w = (r, w, [EvUnlock]).
Proof. reflexivity. Qed.
End RunFacts.

(** ** Facts about the loop of ConnectPeers *)

Section Loop.
Context {Net : Type} `{!Network Net}.
Implicit Types (Req T : gset N) (peers : list Peer) (w : World Net).

Lemma requested_subseteq Req peers : idsOf (requested Req peers) ⊆ Req.
Proof.
  intros n. unfold idsOf, requested.
  rewrite elem_of_list_to_set, list_elem_of_fmap.
  intros (p & -> & Hp). by apply list_elem_of_filter in Hp as [? _].
Qed.

Lemma idsOf_cons p peers : idsOf (p :: peers) = {[peer_ID p]} ∪ idsOf peers.
Proof. reflexivity. Qed.

Lemma requested_cons_in Req p peers :
  peer_ID p ∈ Req -> requested Req (p :: peers) = p :: requested Req peers.
Proof. intros. unfold requested. by rewrite filter_cons_True. Qed.

Lemma requested_cons_out Req p peers :
  peer_ID p ∉ Req -> requested Req (p :: peers) = requested Req peers.
Proof. intros. unfold requested. by rewrite filter_cons_False. Qed.

Lemma trackPeers_run Req peers T w :
  run (trackPeers Req peers T) w =
    (let done := requested Req (take (iterations Req peers T) peers) in
     (T ∪ idsOf done,
      mkWorld (trackAll (network w) done) (infoAPI_Peers w)
        (validatorClient w),
      trackEvents done ++ [EvUnlock])).
Proof.
  revert T w. induction peers as [| p rest IH]; intros T w.
  - destruct w. simpl. f_equal. f_equal. unfold idsOf. simpl. set_solver.
  - simpl. destruct (decide (peer_ID p ∈ Req)) as [Hin | Hout].
    + simpl.
      destruct (decide (size (T ∪ {[peer_ID p]}) = size Req)) as [Hsz | Hsz].
      * simpl. rewrite (requested_cons_in _ _ _ Hin). simpl.
        f_equal. f_equal. rewrite idsOf_cons. set_solver.
      * rewrite IH. simpl. rewrite (requested_cons_in _ _ _ Hin).
        simpl. f_equal. f_equal. rewrite idsOf_cons. set_solver.
    + rewrite IH. simpl. rewrite (requested_cons_out _ _ _ Hout). done.
Qed.

Lemma iterations_le Req peers T : iterations Req peers T ≤ length peers.
Proof.
  revert T. induction peers as [| p rest IH]; intros T; simpl; [lia |].
  pose proof (IH T). pose proof (IH (T ∪ {[peer_ID p]})).
  repeat case_decide; lia.
Qed.

Lemma tracked_all Req T :
  T ⊆ Req -> size T = size Req -> T = Req.
Proof. intros Hsub Hsz. apply set_subseteq_size_eq; [done | lia]. Qed.

(** The loop leaves the list early only with every requested node
    tracked. *)
Lemma iterations_early Req peers T :
  T ⊆ Req ->
  iterations Req peers T < length peers ->
  T ∪ idsOf (requested Req (take (iterations Req peers T) peers)) = Req.
Proof.
  revert T. induction peers as [| p rest IH]; intros T HT; simpl; [lia |].
  destruct (decide (peer_ID p ∈ Req)) as [Hin | Hout].
  - destruct (decide (size (T ∪ {[peer_ID p]}) = size Req)) as [Hsz | Hsz].
    + intros _. simpl. rewrite (requested_cons_in _ _ _ Hin).
      apply tracked_all in Hsz; [| set_solver].
      rewrite <- Hsz at 2. rewrite idsOf_cons. set_solver.
    + intros Hlt. simpl. rewrite (requested_cons_in _ _ _ Hin), idsOf_cons.
      rewrite <- (IH (T ∪ {[peer_ID p]})) at 3; [| set_solver | lia].
      set_solver.
  - intros Hlt. simpl. rewrite (requested_cons_out _ _ _ Hout).
    apply IH; [done | lia].
Qed.

(** The loop returns at the first entry whose tracking completes the
    requested set. *)
Lemma iterations_asap Req peers T j p :
  T ⊆ Req ->
  j < iterations Req peers T ->
  peers !! j = Some p ->
  peer_ID p ∈ Req ->
  T ∪ idsOf (requested Req (take (S j) peers)) = Req ->
  iterations Req peers T = S j.
Proof.
  revert T j. induction peers as [| q rest IH]; intros T j HT; simpl;
    [lia |].
  destruct (decide (peer_ID q ∈ Req)) as [Hin | Hout].
  - destruct (decide (size (T ∪ {[peer_ID q]}) = size Req)) as [Hsz | Hsz].
    + intros Hj _ _ _. f_equal. lia.
    + destruct j as [| j]; simpl.
      * intros _ _ _ Hall. exfalso. apply Hsz.
        rewrite (requested_cons_in _ _ _ Hin), idsOf_cons in Hall.
        rewrite ?take_0 in Hall. f_equal.
        unfold requested, idsOf in Hall. simpl in Hall. set_solver.
      * intros Hj Hp Hreq Hall. f_equal.
        apply (IH (T ∪ {[peer_ID q]})); [set_solver | lia | done | done |].
        rewrite (requested_cons_in _ _ _ Hin), idsOf_cons in Hall.
        rewrite <- Hall at 2. set_solver.
  - destruct j as [| j]; simpl.
    + intros _ [= ->] Hreq. done.
    + intros Hj Hp Hreq Hall. f_equal.
      rewrite (requested_cons_out _ _ _ Hout) in Hall.
      apply IH; [done | lia | done | done | done].
Qed.

(** ConnectPeers, path by path. *)
Lemma ConnectPeers_run Req w :
  run (ConnectPeers Req) w =
    if decide (length (PeerInfo (network w) (elements Req)) = size Req)
    then (Req, w, [EvLock; EvPeerInfo (elements Req); EvUnlock])
    else
      match infoAPI_Peers w with
      | Err _ =>
          (∅, w, [EvLock; EvPeerInfo (elements Req); EvPeers;
                  EvLogError "Failed to get peers"; EvUnlock])
      | Ok peers =>
          let done :=
            requested Req (take (iterations Req peers ∅) peers) in
          (idsOf done,
           mkWorld (trackAll (network w) done) (infoAPI_Peers w)
             (validatorClient w),
           [EvLock; EvPeerInfo (elements Req); EvPeers]
             ++ trackEvents done ++ [EvUnlock])
      end.
Proof.
  unfold ConnectPeers. simpl.
  destruct (decide (length (PeerInfo (network w) (elements Req)) = size Req));
    [reflexivity |].
  simpl. destruct (infoAPI_Peers w) as [peers | err] eqn:Hpeers;
    [| reflexivity].
  rewrite trackPeers_run. simpl. rewrite Hpeers.
  by rewrite (left_id_L ∅ (∪)).
Qed.

Lemma ConnectPeers_subseteq Req w : result_of (ConnectPeers Req) w ⊆ Req.
Proof.
  unfold result_of. rewrite ConnectPeers_run.
  case_decide; [done |]. destruct (infoAPI_Peers w); simpl.
  - apply requested_subseteq.
  - set_solver.
Qed.
End Loop.

(** ** ConnectPeers: the fast path, the directory path, the empty request *)

Section ConnectPeersClaims.
Context {Net : Type} `{!Network Net}.
Implicit Types (Req : gset N) (peers : list Peer) (w : World Net).

(** The fast path.  When the check of the live connections answers with
    as many entries as there are requested nodes, ConnectPeers returns
    the requested set itself; it only takes the lock, asks [PeerInfo] and
    releases the lock, leaving the world as it was: the info API is not
    asked and no peer is tracked.  A second call right after does the
    same and returns the same set. *)
Lemma ConnectPeers_fast_path Req w :
  length (PeerInfo (network w) (elements Req)) = size Req ->
  run (ConnectPeers Req) w =
    (Req, w, [EvLock; EvPeerInfo (elements Req); EvUnlock]) /\
  run (ConnectPeers Req ;; ConnectPeers Req) w =
    (Req, w, [EvLock; EvPeerInfo (elements Req); EvUnlock;
              EvLock; EvPeerInfo (elements Req); EvUnlock]).
Proof.
  intros Hall.
  assert (run (ConnectPeers Req) w =
    (Req, w, [EvLock; EvPeerInfo (elements Req); EvUnlock])) as Hone.
  { rewrite ConnectPeers_run. by rewrite decide_True. }
  split; [exact Hone |].
  rewrite run_bind, Hone, Hone. reflexivity.
Qed.

(** C4.  When the live connections do not cover the request and the
    info API answers with a peer list, ConnectPeers goes through a
    prefix of that list, of some length [k]: it tracks, in order, the
    entries of the prefix whose node is requested, and returns the set
    of their nodes, a subset of the request.  The prefix is shorter than
    the list only if every requested node has been tracked, and it ends
    at the first entry whose tracking completes the request. *)
Theorem ConnectPeers_tracks_requested_prefix Req peers w :
  length (PeerInfo (network w) (elements Req)) ≠ size Req ->
  infoAPI_Peers w = Ok peers ->
  exists k : nat,
    k ≤ length peers /\
    result_of (ConnectPeers Req) w = idsOf (requested Req (take k peers)) /\
    result_of (ConnectPeers Req) w ⊆ Req /\
    events_of (ConnectPeers Req) w =
      [EvLock; EvPeerInfo (elements Req); EvPeers]
        ++ trackEvents (requested Req (take k peers)) ++ [EvUnlock] /\
    network (world_after (ConnectPeers Req) w) =
      trackAll (network w) (requested Req (take k peers)) /\
    (k < length peers -> result_of (ConnectPeers Req) w = Req) /\
    (forall (j : nat) (p : Peer),
        j < k -> peers !! j = Some p -> peer_ID p ∈ Req ->
        idsOf (requested Req (take (S j) peers)) = Req -> k = S j).
Proof.
  intros Hslow Hpeers. exists (iterations Req peers ∅).
  pose proof (ConnectPeers_subseteq Req w) as Hsub.
  unfold result_of, events_of, world_after in *.
  rewrite ConnectPeers_run in *.
  rewrite decide_False in * by done. rewrite Hpeers in *. simpl in *.
  split; [apply iterations_le |].
  split; [done |]. split; [done |]. split; [done |]. split; [done |].
  split.
  - intros Hlt.
    rewrite <- (iterations_early Req peers ∅) at 3; [| set_solver | done].
    by rewrite (left_id_L ∅ (∪)).
  - intros j p Hj Hp Hreq Hall.
    apply (iterations_asap Req peers ∅ j p); [set_solver | done.. |].
    by rewrite (left_id_L ∅ (∪)).
Qed.

Lemma requested_empty peers : requested ∅ peers = [].
Proof.
  unfold requested. induction peers as [| p rest IH]; [done |].
  rewrite filter_cons_False; [done | set_solver].
Qed.

(** The empty request, on any network: ConnectPeers returns the empty
    set, tracks no peer and leaves the network as it was; it asks the
    info API for its peers exactly when [PeerInfo] of the empty request
    answers with some entry. *)
Lemma ConnectPeers_empty_request w :
  result_of (ConnectPeers ∅) w = ∅ /\
  network (world_after (ConnectPeers ∅) w) = network w /\
  (forall nodeID ip, EvManuallyTrack nodeID ip ∉ events_of (ConnectPeers ∅) w) /\
  (EvPeers ∈ events_of (ConnectPeers ∅) w <-> PeerInfo (network w) [] ≠ []).
Proof.
  unfold result_of, events_of, world_after.
  rewrite ConnectPeers_run, elements_empty, size_empty.
  destruct (PeerInfo (network w) []) as [| p l] eqn:Hinfo; simpl.
  - repeat split; try done.
    + intros nodeID ip Hin. set_solver.
    + intros Hin. set_solver.
  - destruct (infoAPI_Peers w) as [peers | err]; simpl.
    + rewrite requested_empty. simpl. repeat split; try done.
      * intros nodeID ip Hin. set_solver.
      * intros _. set_solver.
    + repeat split; try done.
      * intros nodeID ip Hin. set_solver.
      * intros _. set_solver.
Qed.
End ConnectPeersClaims.

(** On the network with a table of connections, the check of the live
    connections counts the requested nodes that are connected, as long
    as some node is requested. *)
Lemma PeerInfo_counts_connected (net : P2P) (Req : gset N) :
  oneConnectionPerNode net -> Req ≠ ∅ ->
  length (PeerInfo net (elements Req))
    = size (Req ∩ idsOf (connectedPeers net)).
Proof.
  intros Hone Hreq. unfold PeerInfo, p2p_network.
  destruct (elements Req) as [| n0 l] eqn:Hel.
  { by apply elements_empty_inv, leibniz_equiv in Hel. }
  rewrite <- Hel. clear n0 l Hel. unfold oneConnectionPerNode in Hone.
  induction (connectedPeers net) as [| p peers IH].
  - unfold idsOf. simpl. by rewrite (right_absorb_L ∅ (∩)), size_empty.
  - rewrite fmap_cons in Hone. apply NoDup_cons in Hone as [Hp Hone].
    specialize (IH Hone). rewrite idsOf_cons.
    assert (peer_ID p ∉ idsOf peers) as Hp'.
    { unfold idsOf. by rewrite elem_of_list_to_set. }
    destruct (decide (peer_ID p ∈ Req)) as [Hin | Hout].
    + rewrite filter_cons_True by (by apply elem_of_elements).
      replace (Req ∩ ({[peer_ID p]} ∪ idsOf peers))
        with ({[peer_ID p]} ∪ Req ∩ idsOf peers) by set_solver.
      rewrite size_union by set_solver. rewrite size_singleton.
      simpl. by rewrite IH.
    + rewrite filter_cons_False by (by rewrite elem_of_elements).
      replace (Req ∩ ({[peer_ID p]} ∪ idsOf peers))
        with (Req ∩ idsOf peers) by set_solver.
      done.
Qed.

(** C3.  On the network with a table of connections, one per node: for
    every set of nodes but the empty one, when every node of the set is
    connected ConnectPeers returns the set itself, and only takes the
    lock, asks [PeerInfo] and releases the lock, leaving the world as it
    was; a second call right after does the same.  For the empty set the
    condition holds of every network, and yet, with any live connection,
    ConnectPeers asks the info API for its peers, at each call. *)
Theorem ConnectPeers_fast_path_misses_empty_request :
  (forall (Req : gset N) (w : World P2P),
      oneConnectionPerNode (network w) ->
      (forall n, n ∈ Req -> connectedTo (network w) n) ->
      Req ≠ ∅ ->
      run (ConnectPeers Req) w =
        (Req, w, [EvLock; EvPeerInfo (elements Req); EvUnlock]) /\
      run (ConnectPeers Req ;; ConnectPeers Req) w =
        (Req, w, [EvLock; EvPeerInfo (elements Req); EvUnlock;
                  EvLock; EvPeerInfo (elements Req); EvUnlock])) /\
  (forall (w : World P2P),
      connectedPeers (network w) ≠ [] ->
      (forall n, n ∈ (∅ : gset N) -> connectedTo (network w) n) /\
      exists rest,
        events_of (ConnectPeers ∅) w
          = [EvLock; EvPeerInfo []; EvPeers] ++ rest) /\
  events_of (ConnectPeers ∅ ;; ConnectPeers ∅) live_peer_world =
    [EvLock; EvPeerInfo []; EvPeers; EvUnlock;
     EvLock; EvPeerInfo []; EvPeers; EvUnlock].
Proof.
  split; [| split].
  - intros Req w Hone Hall Hreq. apply ConnectPeers_fast_path.
    rewrite (PeerInfo_counts_connected _ _ Hone Hreq). f_equal.
    apply set_eq. intros n. unfold idsOf. rewrite elem_of_intersection.
    rewrite elem_of_list_to_set. specialize (Hall n).
    unfold connectedTo in Hall. tauto.
  - intros w Hlive. split; [set_solver |].
    unfold events_of. rewrite ConnectPeers_run, elements_empty, size_empty.
    change (PeerInfo (network w) []) with (connectedPeers (network w)).
    destruct (connectedPeers (network w)) as [| p l]; [done |].
    rewrite decide_False by done.
    destruct (infoAPI_Peers w) as [peers | err]; simpl; by eexists.
  - vm_compute. reflexivity.
Qed.

Lemma ConnectPeers_tracks_requested_prefix_witness :
  exists k : nat,
    k ≤ 4 /\
    result_of (ConnectPeers {[1%N; 2%N]}) directory_world =
      idsOf (requested {[1%N; 2%N]}
               (take k [peer_at 2; peer_at 3; peer_at 1; peer_at 4])) /\
    result_of (ConnectPeers {[1%N; 2%N]}) directory_world
      ⊆ ({[1%N; 2%N]} : gset N).
Proof.
  destruct (ConnectPeers_tracks_requested_prefix {[1%N; 2%N]}
              [peer_at 2; peer_at 3; peer_at 1; peer_at 4] directory_world)
    as (k & Hk & Hres & Hsub & _).
  - vm_compute. discriminate.
  - reflexivity.
  - exists k. split; [exact Hk |]. split; [exact Hres | exact Hsub].
Defined.

(** The fast path at work: nodes 1 and 2 are connected and requested. *)
Example fast_path_on_connected_world :
  oneConnectionPerNode (network connected_world) /\
  (forall n, n ∈ ({[1%N; 2%N]} : gset N) ->
             connectedTo (network connected_world) n) /\
  run (ConnectPeers {[1%N; 2%N]}) connected_world =
    ({[1%N; 2%N]}, connected_world,
     [EvLock; EvPeerInfo (elements ({[1%N; 2%N]} : gset N)); EvUnlock]).
Proof.
  split; [| split].
  - unfold oneConnectionPerNode. simpl. repeat constructor; set_solver.
  - intros n Hn. unfold connectedTo. simpl. set_solver.
  - vm_compute. reflexivity.
Qed.

(** C9 fails on the code.  For the empty request and a network with one
    live connection, [PeerInfo] of the empty list answers with that
    connection, the test of the fast path compares 1 with 0, and
    ConnectPeers goes on to ask the info API for its peers before it
    returns. *)
Theorem ConnectPeers_empty_request_asks_directory :
  events_of (ConnectPeers ∅) live_peer_world =
    [EvLock; EvPeerInfo []; EvPeers; EvUnlock] /\
  EvPeers ∈ events_of (ConnectPeers ∅) live_peer_world.
Proof.
  assert (events_of (ConnectPeers ∅) live_peer_world =
            [EvLock; EvPeerInfo []; EvPeers; EvUnlock]) as Hev
    by (vm_compute; reflexivity).
  split; [exact Hev |]. rewrite Hev. set_solver.
Qed.

(** ** Facts about the node-to-validator index *)

Section Index.
Implicit Types (vs : list Validator) (m : gmap N nat) (n : N).

Lemma indexNodes_lookup i nodes m n :
  indexNodes i nodes m !! n = if decide (n ∈ nodes) then Some i else m !! n.
Proof.
  unfold indexNodes. revert m.
  induction nodes as [| x nodes IH]; intros m; simpl.
  - done.
  - rewrite IH. destruct (decide (n ∈ nodes)) as [Hin | Hout].
    + rewrite decide_True; [done | by right].
    + destruct (decide (x = n)) as [-> | Hne].
      * rewrite lookup_insert_eq, decide_True; [done | by left].
      * rewrite lookup_insert_ne by done.
        rewrite decide_False; [done |].
        intros [-> | ?]%elem_of_cons; done.
Qed.

Lemma indexValidators_lookup i0 vs m n :
  indexValidators i0 vs m !! n =
    match lastOwner n vs with
    | Some j => Some (i0 + j)
    | None => m !! n
    end.
Proof.
  revert i0 m. induction vs as [| v vs IH]; intros i0 m; simpl; [done |].
  rewrite IH. destruct (lastOwner n vs) as [j |].
  - f_equal. lia.
  - rewrite indexNodes_lookup. case_decide; [f_equal; lia | done].
Qed.

Lemma nodeValidatorIndexMap_lookup vs n :
  nodeValidatorIndexMap vs !! n = lastOwner n vs.
Proof.
  unfold nodeValidatorIndexMap. rewrite indexValidators_lookup.
  by destruct (lastOwner n vs).
Qed.

Lemma lastOwner_None vs n :
  lastOwner n vs = None <-> forall v, v ∈ vs -> n ∉ NodeIDs v.
Proof.
  induction vs as [| v vs IH]; simpl.
  - split; [| done]. intros _ v Hv. by apply not_elem_of_nil in Hv.
  - destruct (lastOwner n vs) as [j |].
    + split; [done |]. intros Hall. exfalso.
      assert (Some j = None) as Hj; [| done].
      apply IH. intros v' Hv'. apply Hall. by right.
    + case_decide as Hin.
      * split; [done |]. intros Hall. exfalso.
        by apply (Hall v); [left |].
      * split; [| done]. intros _ v' [-> | Hv']%elem_of_cons; [done |].
        by apply IH.
Qed.

Lemma lastOwner_Some vs n i :
  lastOwner n vs = Some i <->
    (exists v, vs !! i = Some v /\ n ∈ NodeIDs v) /\
    (forall j v, vs !! j = Some v -> n ∈ NodeIDs v -> j ≤ i).
Proof.
  revert i. induction vs as [| v vs IH]; intros i; simpl.
  - split; [done |]. by intros [(v & Hv & _) _].
  - destruct (lastOwner n vs) as [k |] eqn:Hlast.
    + split.
      * intros [= <-]. destruct (proj1 (IH k) eq_refl) as [(u & Hu & Hn) Hmax].
        split; [by exists u |].
        intros [| j] v' Hj Hv'; [lia |]. simpl in Hj.
        specialize (Hmax j v' Hj Hv'). lia.
      * intros [(u & Hu & Hn) Hmax]. f_equal.
        destruct (proj1 (IH k) eq_refl) as [(u' & Hu' & Hn') Hmax'].
        pose proof (Hmax (S k) u' Hu' Hn') as Hle.
        destruct i as [| i]; [lia |]. simpl in Hu.
        pose proof (Hmax' i u Hu Hn). lia.
    + assert (forall j u, vs !! j = Some u -> n ∉ NodeIDs u) as Hnone.
      { intros j u Hu. apply (proj1 (lastOwner_None vs n) Hlast).
        apply list_elem_of_lookup. by exists j. }
      case_decide as Hin.
      * split.
        -- intros [= <-]. split; [by exists v |].
           intros [| j] u Hu Hn; [lia |]. simpl in Hu.
           by destruct (Hnone j u Hu).
        -- intros [(u & Hu & Hn) _]. destruct i as [| i]; [done |].
           simpl in Hu. by destruct (Hnone i u Hu).
      * split; [done |]. intros [(u & Hu & Hn) _].
        destruct i as [| i]; simpl in Hu.
        -- by injection Hu as ->.
        -- by destruct (Hnone i u Hu).
Qed.

Lemma dom_nodeValidatorIndexMap vs :
  dom (nodeValidatorIndexMap vs) = allNodeIDs vs.
Proof.
  apply set_eq. intros n. unfold allNodeIDs.
  rewrite elem_of_dom, nodeValidatorIndexMap_lookup, elem_of_list_to_set,
    list_elem_of_bind.
  split.
  - intros [i Hi]. apply lastOwner_Some in Hi as [(v & Hv & Hn) _].
    exists v. split; [done |]. apply list_elem_of_lookup. by exists i.
  - intros (v & Hn & Hv).
    destruct (lastOwner n vs) as [i |] eqn:Hlast; [by exists i |].
    exfalso. by apply (proj1 (lastOwner_None vs n) Hlast v).
Qed.

(** Every index stored in the map is an index of the set. *)
Lemma nodeValidatorIndexMap_in_range vs n i :
  nodeValidatorIndexMap vs !! n = Some i -> is_Some (vs !! i).
Proof.
  rewrite nodeValidatorIndexMap_lookup.
  intros [(v & Hv & _) _]%lastOwner_Some. by exists v.
Qed.
End Index.

(** ** Facts about the connected weight *)

Section Weight.
Implicit Types (vs : list Validator) (m : gmap N nat) (C : gset N).

Lemma sumZ_perm (l k : list Z) : l ≡ₚ k -> sumZ l = sumZ k.
Proof.
  induction 1 as [| x l k _ IH | x y l | l k k' _ IH1 _ IH2]; simpl;
    [done | by rewrite IH | lia | congruence].
Qed.

Lemma sumZ_cons (x : Z) (l : list Z) : sumZ (x :: l) = (x + sumZ l)%Z.
Proof. reflexivity. Qed.

Lemma sumZ_app (l k : list Z) : sumZ (l ++ k) = (sumZ l + sumZ k)%Z.
Proof.
  induction l as [| x l IH]; [done |].
  rewrite <- app_comm_cons, !sumZ_cons, IH. apply Z.add_assoc.
Qed.

Lemma wrap64_add_l (a b : Z) : wrap64 (wrap64 a + b) = wrap64 (a + b).
Proof. unfold wrap64. by rewrite Zplus_mod_idemp_l. Qed.

Lemma foldl_addWeight vs m (l : list N) (a : Z) :
  Forall (fun n => is_Some (vs !! default 0 (m !! n))) l ->
  foldl (addWeight vs m) (Some (wrap64 a)) l =
    Some (wrap64 (a + sumZ (nodeWeight vs m <$> l))).
Proof.
  intros Hall. revert a.
  induction Hall as [| n l [v Hv] _ IH]; intros a; simpl.
  - by rewrite Z.add_0_r.
  - rewrite Hv, wrap64_add_l, IH. unfold nodeWeight at 2. rewrite Hv.
    cbn [from_option]. by rewrite Z.add_assoc.
Qed.

Lemma sumConnectedWeight_nodes vs C :
  C ⊆ dom (nodeValidatorIndexMap vs) ->
  sumConnectedWeight vs (nodeValidatorIndexMap vs) C =
    Some (wrap64 (sumZ (nodeWeight vs (nodeValidatorIndexMap vs)
                          <$> elements C))).
Proof.
  intros Hsub. unfold sumConnectedWeight.
  change (Some 0%Z) with (Some (wrap64 0)).
  rewrite foldl_addWeight; [done |].
  apply Forall_forall. intros n Hn%elem_of_elements%Hsub.
  apply elem_of_dom in Hn as [i Hi]. rewrite Hi. simpl.
  by apply nodeValidatorIndexMap_in_range in Hi.
Qed.

(** One more connected node adds the weight of the validator the map
    gives it. *)
Lemma sumConnectedWeight_insert vs C n i v :
  {[n]} ∪ C ⊆ dom (nodeValidatorIndexMap vs) ->
  n ∉ C ->
  nodeValidatorIndexMap vs !! n = Some i ->
  vs !! i = Some v ->
  exists rest : Z,
    sumConnectedWeight vs (nodeValidatorIndexMap vs) C = Some rest /\
    sumConnectedWeight vs (nodeValidatorIndexMap vs) ({[n]} ∪ C) =
      Some (wrap64 (rest + Weight v)).
Proof.
  intros Hsub Hn Hi Hv.
  rewrite !sumConnectedWeight_nodes by set_solver.
  eexists. split; [reflexivity |]. f_equal.
  rewrite (sumZ_perm _ _ (fmap_Permutation _ _ _
                            (elements_union_singleton C n Hn))).
  simpl. unfold nodeWeight at 1. rewrite Hi. simpl. rewrite Hv. simpl.
  by rewrite wrap64_add_l, Z.add_comm.
Qed.
End Weight.

(** ** ConnectToCanonicalValidators, path by path *)

Section Canonical.
Context {Net : Type} `{!Network Net}.
Implicit Types (vs : list Validator) (w : World Net).

Lemma ConnectToCanonicalValidators_run subnetID w :
  run (ConnectToCanonicalValidators subnetID) w =
    match validatorClient w subnetID with
    | Err err =>
        (Return (Err err), w, [EvGetCurrentCanonicalValidatorSet subnetID])
    | Ok (vs, total) =>
        let m := nodeValidatorIndexMap vs in
        let connectedNodes := result_of (ConnectPeers (dom m)) w in
        (Return (Ok (mkConnected
                       (wrap64 (sumZ (nodeWeight vs m
                                        <$> elements connectedNodes)))
                       total vs m)),
         world_after (ConnectPeers (dom m)) w,
         EvGetCurrentCanonicalValidatorSet subnetID
           :: events_of (ConnectPeers (dom m)) w)
    end.
Proof.
  unfold ConnectToCanonicalValidators, call, nodeIDsOf.
  cbn [bind run handle event_of].
  destruct (validatorClient w subnetID) as [[vs total] | err];
    [| reflexivity].
  rewrite run_bind.
  pose proof (ConnectPeers_subseteq (dom (nodeValidatorIndexMap vs)) w)
    as Hsub.
  unfold result_of, world_after, events_of in *.
  destruct (run (ConnectPeers (dom (nodeValidatorIndexMap vs))) w)
    as [[connectedNodes w'] evs].
  simpl in *. rewrite (sumConnectedWeight_nodes _ _ Hsub). simpl.
  by rewrite app_nil_r.
Qed.
End Canonical.

(** ** Claims about ConnectToCanonicalValidators *)

Section CanonicalClaims.
Context {Net : Type} `{!Network Net}.
Implicit Types (vs : list Validator) (w : World Net).

(** C5.  ConnectToCanonicalValidators returns an error exactly when the
    validator client fails to resolve the set, and then it is the
    client's error.  When the set is resolved it calls ConnectPeers once,
    on the nodes of the set, and whatever ConnectPeers achieved it
    returns a result: the set, its total weight and its index map as
    resolved, and as connected weight the sum (modulo 2^64) over the
    nodes ConnectPeers returned of the weight of the validator the map
    gives for the node, which is 0 when no node is connected.  What was
    connected shows in that one field only.  It never panics. *)
Theorem ConnectToCanonicalValidators_fails_only_on_resolution subnetID w :
  (forall err,
      result_of (ConnectToCanonicalValidators subnetID) w = Return (Err err)
      <-> validatorClient w subnetID = Err err) /\
  (forall vs total,
      validatorClient w subnetID = Ok (vs, total) ->
      events_of (ConnectToCanonicalValidators subnetID) w =
        EvGetCurrentCanonicalValidatorSet subnetID
          :: events_of (ConnectPeers (dom (nodeValidatorIndexMap vs))) w /\
      world_after (ConnectToCanonicalValidators subnetID) w =
        world_after (ConnectPeers (dom (nodeValidatorIndexMap vs))) w /\
      result_of (ConnectToCanonicalValidators subnetID) w =
        Return (Ok (mkConnected
                      (wrap64
                         (sumZ (nodeWeight vs (nodeValidatorIndexMap vs)
                                  <$> elements
                                        (result_of
                                           (ConnectPeers
                                              (dom (nodeValidatorIndexMap vs)))
                                           w))))
                      total vs (nodeValidatorIndexMap vs))) /\
      (result_of (ConnectPeers (dom (nodeValidatorIndexMap vs))) w = ∅ ->
       result_of (ConnectToCanonicalValidators subnetID) w =
         Return (Ok (mkConnected 0 total vs (nodeValidatorIndexMap vs))))) /\
  (forall msg,
      result_of (ConnectToCanonicalValidators subnetID) w ≠ Panics msg).
Proof.
  unfold result_of, events_of, world_after.
  rewrite ConnectToCanonicalValidators_run.
  unfold result_of, events_of, world_after.
  destruct (validatorClient w subnetID) as [[vs total] | err];
    cbv zeta; cbn [fst snd].
  - split; [| split].
    + intros err. split; discriminate.
    + intros vs' total' [= <- <-]. split; [done |]. split; [done |].
      split; [done |]. intros Hnone. by rewrite Hnone, elements_empty.
    + discriminate.
  - split; [| split].
    + intros err'. split; congruence.
    + discriminate.
    + discriminate.
Qed.

(** C2, as the code has it.  When the set is resolved, the live
    connections do not cover it and the info API fails, ConnectPeers
    logs the failure and returns the empty set, and
    ConnectToCanonicalValidators returns a result, not an error, whose
    connected weight is 0. *)
Theorem ConnectToCanonicalValidators_absorbs_directory_failure
    subnetID w vs total err :
  validatorClient w subnetID = Ok (vs, total) ->
  length (PeerInfo (network w) (elements (dom (nodeValidatorIndexMap vs))))
    ≠ size (dom (nodeValidatorIndexMap vs)) ->
  infoAPI_Peers w = Err err ->
  result_of (ConnectPeers (dom (nodeValidatorIndexMap vs))) w = ∅ /\
  result_of (ConnectToCanonicalValidators subnetID) w =
    Return (Ok (mkConnected 0 total vs (nodeValidatorIndexMap vs))) /\
  events_of (ConnectToCanonicalValidators subnetID) w =
    [EvGetCurrentCanonicalValidatorSet subnetID; EvLock;
     EvPeerInfo (elements (dom (nodeValidatorIndexMap vs))); EvPeers;
     EvLogError "Failed to get peers"; EvUnlock].
Proof.
  intros Hvs Hslow Hdown.
  assert (run (ConnectPeers (dom (nodeValidatorIndexMap vs))) w =
            (∅, w, [EvLock;
                    EvPeerInfo (elements (dom (nodeValidatorIndexMap vs)));
                    EvPeers; EvLogError "Failed to get peers"; EvUnlock]))
    as Hrun.
  { rewrite ConnectPeers_run, decide_False by done. by rewrite Hdown. }
  assert (result_of (ConnectPeers (dom (nodeValidatorIndexMap vs))) w = ∅)
    as Hres by (unfold result_of; by rewrite Hrun).
  assert (events_of (ConnectPeers (dom (nodeValidatorIndexMap vs))) w =
            [EvLock; EvPeerInfo (elements (dom (nodeValidatorIndexMap vs)));
             EvPeers; EvLogError "Failed to get peers"; EvUnlock])
    as Hevs by (unfold events_of; by rewrite Hrun).
  split; [exact Hres |].
  unfold result_of at 1, events_of at 1.
  rewrite ConnectToCanonicalValidators_run, Hvs. cbv zeta.
  rewrite Hres, Hevs, elements_empty. done.
Qed.
End CanonicalClaims.

(** C1 fails at [twin_world]: the set has one validator of weight 10 and
    total weight 10, both of its nodes are connected, and the connected
    weight the code returns is 20: the validator is counted once per
    connected node, and the result exceeds the total weight. *)
Theorem ConnectedWeight_counts_every_connected_node :
  result_of (ConnectPeers (dom (nodeValidatorIndexMap [twin_validator])))
    twin_world = {[1%N; 2%N]} /\
  result_of (ConnectToCanonicalValidators 7%N) twin_world =
    Return (Ok (mkConnected 20 10 [twin_validator]
                  (nodeValidatorIndexMap [twin_validator]))) /\
  weightOfConnectedValidators [twin_validator] {[1%N; 2%N]} = 10%Z.
Proof. vm_compute. done. Qed.

(** C2 as stated fails: the info API is asked, fails, and the caller gets
    a result without error, the same result as when the info API answers
    with an empty peer list. *)
Lemma directory_failure_is_not_reported :
  infoAPI_Peers directory_down_world = Err "connection refused" /\
  EvPeers ∈ events_of (ConnectToCanonicalValidators 7%N) directory_down_world /\
  result_of (ConnectToCanonicalValidators 7%N) directory_down_world =
    Return (Ok (mkConnected 0 30 two_validators
                  (nodeValidatorIndexMap two_validators))) /\
  result_of (ConnectToCanonicalValidators 7%N) directory_down_world =
    result_of (ConnectToCanonicalValidators 7%N) directory_empty_world.
Proof.
  split; [reflexivity |]. split; [| split; vm_compute; reflexivity].
  replace (events_of (ConnectToCanonicalValidators 7%N) directory_down_world)
    with [EvGetCurrentCanonicalValidatorSet 7%N; EvLock;
          EvPeerInfo (elements (dom (nodeValidatorIndexMap two_validators)));
          EvPeers; EvLogError "Failed to get peers"; EvUnlock]
    by (vm_compute; reflexivity).
  set_solver.
Qed.

Lemma ConnectToCanonicalValidators_absorbs_directory_failure_witness :
  result_of (ConnectPeers (dom (nodeValidatorIndexMap two_validators)))
    directory_down_world = ∅ /\
  result_of (ConnectToCanonicalValidators 7%N) directory_down_world =
    Return (Ok (mkConnected 0 30 two_validators
                  (nodeValidatorIndexMap two_validators))) /\
  events_of (ConnectToCanonicalValidators 7%N) directory_down_world =
    [EvGetCurrentCanonicalValidatorSet 7%N; EvLock;
     EvPeerInfo (elements (dom (nodeValidatorIndexMap two_validators)));
     EvPeers; EvLogError "Failed to get peers"; EvUnlock].
Proof.
  apply (ConnectToCanonicalValidators_absorbs_directory_failure 7%N
           directory_down_world two_validators 30%Z "connection refused").
  - reflexivity.
  - vm_compute. discriminate.
  - reflexivity.
Defined.

(** ** Claims about the node-to-validator index *)

Section IndexClaims.
Context {Net : Type} `{!Network Net}.
Implicit Types (vs : list Validator) (w : World Net).

(** C6.  When no node is listed by two validators of the resolved set,
    the keys of the index map are exactly the nodes listed by the
    validators, each node is mapped to the index of the validator that
    lists it and to nothing else, and ConnectPeers is called on the set
    of those keys. *)
Theorem nodeValidatorIndexMap_owner vs :
  (forall i j vi vj n,
      vs !! i = Some vi -> vs !! j = Some vj ->
      n ∈ NodeIDs vi -> n ∈ NodeIDs vj -> i = j) ->
  dom (nodeValidatorIndexMap vs) = allNodeIDs vs /\
  (forall n i,
      nodeValidatorIndexMap vs !! n = Some i <->
      exists v, vs !! i = Some v /\ n ∈ NodeIDs v) /\
  (forall w subnetID total,
      validatorClient w subnetID = Ok (vs, total) ->
      events_of (ConnectToCanonicalValidators subnetID) w =
        EvGetCurrentCanonicalValidatorSet subnetID
          :: events_of (ConnectPeers (allNodeIDs vs)) w /\
      exists connectedWeight : Z,
        result_of (ConnectToCanonicalValidators subnetID) w =
          Return (Ok (mkConnected connectedWeight total vs
                        (nodeValidatorIndexMap vs)))).
Proof.
  intros Huniq. split; [apply dom_nodeValidatorIndexMap |]. split.
  - intros n i. rewrite nodeValidatorIndexMap_lookup, lastOwner_Some.
    split; [by intros [? _] |].
    intros (v & Hv & Hn). split; [by exists v |].
    intros j v' Hv' Hn'. by rewrite (Huniq j i v' v n).
  - intros w subnetID total Hvs.
    unfold result_of at 1, events_of at 1.
    rewrite ConnectToCanonicalValidators_run, Hvs. cbv zeta.
    rewrite dom_nodeValidatorIndexMap. split; [done |]. by eexists.
Qed.
End IndexClaims.

Section SharedNode.
Context {Net : Type} `{!Network Net}.

(** C10.  When the resolved set lists a node under two validators,
    ConnectToCanonicalValidators returns a result whose index map gives
    that node the greatest index of a validator listing it, which is not
    the earlier of the two; and when the node is among those ConnectPeers
    returned, the connected weight of the result is (modulo 2^64) what
    the other connected nodes add, plus the weight of that last
    validator. *)
Theorem nodeValidatorIndexMap_last_owner_wins
    (subnetID : ID) (w : World Net) (vs : list Validator) (total : Z)
    (n : N) (i j : nat) (vi vj : Validator) :
  validatorClient w subnetID = Ok (vs, total) ->
  vs !! i = Some vi -> vs !! j = Some vj -> i < j ->
  n ∈ NodeIDs vi -> n ∈ NodeIDs vj ->
  exists (c : ConnectedCanonicalValidators) (k : nat) (v : Validator),
    result_of (ConnectToCanonicalValidators subnetID) w = Return (Ok c) /\
    ValidatorSet c = vs /\
    NodeValidatorIndexMap c !! n = Some k /\
    vs !! k = Some v /\ n ∈ NodeIDs v /\ i < k /\
    (forall j' v', vs !! j' = Some v' -> n ∈ NodeIDs v' -> j' ≤ k) /\
    (n ∈ result_of (ConnectPeers (dom (NodeValidatorIndexMap c))) w ->
     exists rest : Z,
       sumConnectedWeight vs (NodeValidatorIndexMap c)
         (result_of (ConnectPeers (dom (NodeValidatorIndexMap c))) w
            ∖ {[n]}) = Some rest /\
       ConnectedWeight c = wrap64 (rest + Weight v)).
Proof.
  intros Hvs Hi Hj Hlt Hni Hnj.
  destruct (lastOwner n vs) as [k |] eqn:Hlast.
  - pose proof (proj1 (lastOwner_Some vs n k) Hlast) as [(v & Hv & Hn) Hmax].
    eexists _, k, v. split.
    { unfold result_of. rewrite ConnectToCanonicalValidators_run, Hvs.
      reflexivity. }
    cbn [ValidatorSet NodeValidatorIndexMap ConnectedWeight].
    rewrite nodeValidatorIndexMap_lookup.
    split; [done |]. split; [done |]. split; [done |]. split; [done |].
    split. { pose proof (Hmax j vj Hj Hnj). lia. }
    split; [done |].
    intros Hconn.
    pose proof (ConnectPeers_subseteq (dom (nodeValidatorIndexMap vs)) w)
      as Hsub.
    set (C := result_of (ConnectPeers (dom (nodeValidatorIndexMap vs))) w)
      in *.
    destruct (sumConnectedWeight_insert vs (C ∖ {[n]}) n k v)
      as (rest & Hrest & Hall).
    + set_solver.
    + set_solver.
    + by rewrite nodeValidatorIndexMap_lookup.
    + done.
    + exists rest. split; [done |].
      assert ({[n]} ∪ C ∖ {[n]} = C) as HC.
      { apply set_eq. intros x. destruct (decide (x = n)); set_solver. }
      rewrite HC, (sumConnectedWeight_nodes vs C Hsub) in Hall.
      by injection Hall.
  - exfalso. apply (proj1 (lastOwner_None vs n) Hlast vj); [| done].
    apply list_elem_of_lookup. by exists j.
Qed.
End SharedNode.

Lemma nodeValidatorIndexMap_owner_witness :
  dom (nodeValidatorIndexMap two_validators) = allNodeIDs two_validators /\
  (forall n i,
      nodeValidatorIndexMap two_validators !! n = Some i <->
      exists v, two_validators !! i = Some v /\ n ∈ NodeIDs v).
Proof.
  destruct (nodeValidatorIndexMap_owner (Net := P2P) two_validators)
    as (Hdom & Hmap & _).
  - intros [| [| i]] [| [| j]] vi vj n Hi Hj Hni Hnj;
      simpl in Hi, Hj; simplify_eq; simpl in *; set_solver.
  - split; [exact Hdom | exact Hmap].
Defined.

(** Node 1 gets connected, and counts with the weight 20 of the second
    validator. *)
Example shared_node_connected :
  result_of (ConnectPeers (dom (nodeValidatorIndexMap shared_node_validators)))
    shared_node_world = {[1%N]} /\
  result_of (ConnectToCanonicalValidators 7%N) shared_node_world =
    Return (Ok (mkConnected 20 30 shared_node_validators
                  (nodeValidatorIndexMap shared_node_validators))).
Proof. vm_compute. done. Qed.

Lemma nodeValidatorIndexMap_last_owner_wins_witness :
  exists (c : ConnectedCanonicalValidators) (k : nat) (v : Validator),
    result_of (ConnectToCanonicalValidators 7%N) shared_node_world
      = Return (Ok c) /\
    NodeValidatorIndexMap c !! 1%N = Some k /\
    shared_node_validators !! k = Some v /\ 0 < k /\
    exists rest : Z,
      sumConnectedWeight shared_node_validators (NodeValidatorIndexMap c)
        (result_of (ConnectPeers (dom (NodeValidatorIndexMap c)))
           shared_node_world ∖ {[1%N]}) = Some rest /\
      ConnectedWeight c = wrap64 (rest + Weight v).
Proof.
  destruct (nodeValidatorIndexMap_last_owner_wins 7%N shared_node_world
              shared_node_validators 30%Z 1%N 0 1 (mkValidator [] 10 [1%N])
              (mkValidator [] 20 [1%N; 2%N]))
    as (c & k & v & Hc & _ & Hk & Hv & _ & Hlt & _ & Hweight).
  - reflexivity.
  - reflexivity.
  - reflexivity.
  - lia.
  - simpl. set_solver.
  - simpl. set_solver.
  - exists c, k, v. split; [exact Hc |]. split; [exact Hk |].
    split; [exact Hv |]. split; [exact Hlt |]. apply Hweight.
    destruct shared_node_connected as [Hnodes Hres].
    rewrite Hres in Hc. injection Hc as <-.
    cbn [NodeValidatorIndexMap]. rewrite Hnodes. set_solver.
Defined.

(** ** Facts about concurrent callers *)

Section Serialization.
Context {Net : Type} `{!Network Net}.
Implicit Types (calls : list (gset N)) (c : Config Net (gset N)).

Lemma return_unlocking_in_cs {R : Type} (r : R) :
  in_critical_section (return_unlocking r).
Proof. by apply (cs_unlock r). Qed.

Lemma trackPeers_in_cs Req peers T :
  in_critical_section (trackPeers Req peers T).
Proof.
  revert T. induction peers as [| p rest IH]; intros T; simpl.
  - apply return_unlocking_in_cs.
  - case_decide; [| apply IH].
    apply cs_call; [done |]. intros []. simpl.
    case_decide; [apply return_unlocking_in_cs | apply IH].
Qed.

Lemma ConnectPeers_critical_section Req :
  critical_section (ConnectPeers Req).
Proof.
  eexists. split; [reflexivity |]. intros []. simpl.
  apply cs_call; [done |]. intros connectedPeers. simpl.
  case_decide; [apply return_unlocking_in_cs |].
  apply cs_call; [done |]. intros [peers | err]; simpl.
  - apply trackPeers_in_cs.
  - apply cs_call; [done |]. intros []. apply return_unlocking_in_cs.
Qed.

Lemma serial_snoc calls order i (w : World Net) :
  serial calls (order ++ [i]) w = serial_call calls (serial calls order w) i.
Proof. unfold serial. by rewrite foldl_snoc. Qed.

Lemma start_serialized calls (w0 : World Net) :
  serialized calls w0 (start calls w0).
Proof.
  exists []. simpl. split; [constructor |]. split.
  { intros i. rewrite lookup_empty. split; [by intros ?%not_elem_of_nil |].
    by intros [? ?]. }
  split; [by intros i ?%not_elem_of_nil |].
  split; [by rewrite length_fmap |].
  split; [done |]. split; [done |].
  intros i nodeIDs Hi. by rewrite list_lookup_fmap, Hi, lookup_empty.
Qed.

(** A thread outside its critical section can only take the lock. *)
Lemma thread_of_step calls c i nodeIDs returned c' :
  threads c !! i = Some (thread_of nodeIDs returned) ->
  step_thread i c = Some c' ->
  returned = None /\ mutex c = None /\
  exists body,
    ConnectPeers nodeIDs = Vis OpLock body /\
    (forall x, in_critical_section (body x)) /\
    c' = mkConfig (<[i := body tt]> (threads c)) (Some i) (shared c)
           (history c ++ [(i, EvLock)]).
Proof.
  intros Hi Hstep. unfold step_thread in Hstep. rewrite Hi in Hstep.
  destruct returned as [r |]; [done |]. split; [done |].
  destruct (ConnectPeers_critical_section nodeIDs) as (body & Heq & Hcs).
  change (thread_of nodeIDs None) with (ConnectPeers nodeIDs) in Hstep.
  rewrite Heq in Hstep. simpl in Hstep.
  destruct (mutex c); [done |]. split; [done |].
  exists body. split; [done |]. split; [done |]. congruence.
Qed.

Lemma step_serialized calls (w0 : World Net) c i c' :
  serialized calls w0 c ->
  step_thread i c = Some c' ->
  serialized calls w0 c'.
Proof.
  intros (order & Hnd & Hdone & Hrange & Hlen & Hinv) Hstep.
  assert (exists nodeIDs, calls !! i = Some nodeIDs) as [nodeIDs Hcall].
  { apply lookup_lt_is_Some. rewrite <- Hlen. apply lookup_lt_is_Some.
    unfold step_thread in Hstep. destruct (threads c !! i); [by eexists |].
    done. }
  destruct (mutex c) as [h |] eqn:Hmu.
  - destruct Hinv as (Req & p & pre & HReq & Hnone & Hp & Hcs & Hhist & Hrun
                      & Hothers).
    destruct (decide (i = h)) as [-> | Hne].
    + unfold step_thread in Hstep. rewrite Hp, Hmu in Hstep.
      destruct Hcs as [r k Hk | X op k Hop Hk].
      * simpl in Hstep. injection Hstep as <-. rewrite Hk.
        simpl in Hrun. rewrite Hk in Hrun. simpl in Hrun.
        assert (serial calls (order ++ [h]) w0 =
                  mkSerial (shared c) (history c ++ [(h, EvUnlock)])
                    (<[h := r]> (s_results (serial calls order w0))))
          as Hserial.
        { rewrite serial_snoc. unfold serial_call. rewrite HReq. simpl.
          rewrite Hrun, Hhist, fmap_app, app_assoc. done. }
        exists (order ++ [h]). cbv zeta. rewrite Hserial. simpl.
        split. { apply NoDup_app. split; [done |].
                 split; [| apply NoDup_singleton].
                 intros j Hin ->%list_elem_of_singleton.
                 apply Hdone in Hin as [? ?]. congruence. }
        split. { intros j. rewrite elem_of_app, list_elem_of_singleton.
                 destruct (decide (j = h)) as [-> | Hj].
                 - rewrite lookup_insert_eq. split; [by eexists | by right].
                 - rewrite lookup_insert_ne by done. rewrite <- Hdone.
                   split; [by intros [? | ?] | by left]. }
        split. { intros j [Hin | ->%list_elem_of_singleton]%elem_of_app;
                   [by apply Hrange |].
                 by apply lookup_lt_is_Some; eexists. }
        split. { by rewrite length_insert. }
        split; [done |]. split; [done |].
        intros j Req' Hj. destruct (decide (j = h)) as [-> | Hjh].
        -- rewrite lookup_insert_eq. simpl.
           apply list_lookup_insert_eq. by apply lookup_lt_is_Some; eexists.
        -- rewrite lookup_insert_ne, list_lookup_insert_ne by done.
           by apply Hothers.
      * assert (mutex_after op h (Some h) = Some (Some h)) as Hmutex
          by (by destruct op).
        rewrite Hmutex in Hstep.
        destruct (handle op (shared c)) as [x w] eqn:Hhandle.
        injection Hstep as <-. exists order. cbv zeta.
        cbn [threads mutex shared history].
        split; [done |]. split; [done |]. split; [done |].
        split. { by rewrite length_insert. }
        exists Req, (k x), (pre ++ [event_of op]).
        split; [done |]. split; [done |]. split.
        { apply list_lookup_insert_eq. by apply lookup_lt_is_Some; eexists. }
        split; [apply Hk |]. split.
        { rewrite Hhist, fmap_app, app_assoc. done. }
        split.
        { rewrite Hrun. cbn [run]. rewrite Hhandle.
          destruct (run (k x) w) as [[r w'] evs].
          by rewrite <- app_assoc. }
        intros j Req' Hj HReq'.
        rewrite list_lookup_insert_ne by done. by apply Hothers.
    + destruct (thread_of_step calls c i nodeIDs _ c'
                  (Hothers i nodeIDs Hne Hcall) Hstep) as (_ & Hfree & _).
      congruence.
  - destruct Hinv as (Hw & Hh & Hthreads).
    destruct (thread_of_step calls c i nodeIDs _ c'
                (Hthreads i nodeIDs Hcall) Hstep)
      as (Hnone & _ & body & Hbody & Hcs & ->).
    exists order. cbv zeta. cbn [threads mutex shared history].
    split; [done |]. split; [done |]. split; [done |].
    split. { by rewrite length_insert. }
    exists nodeIDs, (body tt), [EvLock].
    split; [done |]. split; [done |]. split.
    { apply list_lookup_insert_eq. rewrite Hlen.
      by apply lookup_lt_is_Some; eexists. }
    split; [apply Hcs |]. split; [by rewrite Hh |]. split.
    { rewrite Hbody, <- Hw. cbn [run handle event_of].
      by destruct (run (body ()) (shared c)) as [[r w'] evs]. }
    intros j Req' Hj HReq'.
    rewrite list_lookup_insert_ne by done. by apply Hthreads.
Qed.

Lemma exec_serialized calls (w0 : World Net) schedule c c' :
  serialized calls w0 c ->
  exec schedule c = Some c' ->
  serialized calls w0 c'.
Proof.
  revert c. induction schedule as [| i rest IH]; intros c Hc; simpl.
  - by intros [= <-].
  - destruct (step_thread i c) as [c1 |] eqn:Hstep; [| done].
    apply IH. by apply (step_serialized calls w0 c i).
Qed.
End Serialization.

(** ** ConnectPeers under concurrent callers *)

Section SerializationClaim.
Context {Net : Type} `{!Network Net}.
Implicit Types (calls : list (gset N)) (c : Config Net (gset N)).

(** C8.  Every call of ConnectPeers is one critical section: it takes
    the lock first, makes its calls on the network and the info API
    without touching the mutex, and releases the lock right before it
    returns.  So whatever the schedule of concurrent callers, every
    configuration they reach is serialized; and once all of them have
    returned, the world, the calls made and the results are those of
    the same callers running one after the other in some order. *)
Theorem ConnectPeers_calls_are_serialized calls (w0 : World Net)
    schedule c :
  exec schedule (start calls w0) = Some c ->
  (forall nodeIDs, critical_section (ConnectPeers nodeIDs)) /\
  serialized calls w0 c /\
  ((forall i, i < length calls -> exists r, threads c !! i = Some (Ret r)) ->
   exists order : list nat,
     order ≡ₚ seq 0 (length calls) /\
     mutex c = None /\
     shared c = s_world (serial calls order w0) /\
     history c = s_history (serial calls order w0) /\
     forall i, i < length calls ->
       threads c !! i = Ret <$> (s_results (serial calls order w0) !! i)).
Proof.
  intros Hexec. split; [apply ConnectPeers_critical_section |].
  pose proof (exec_serialized calls w0 schedule _ c
                (start_serialized calls w0) Hexec) as Hser.
  split; [exact Hser |]. intros Hdone.
  destruct Hser as (order & Hnd & Hres & Hrange & Hlen & Hinv).
  exists order. destruct (mutex c) as [h |].
  { exfalso. destruct Hinv as (Req & p & pre & HReq & _ & Hp & Hcs & _).
    destruct (Hdone h) as [r Hr].
    { by apply lookup_lt_is_Some; eexists. }
    rewrite Hp in Hr. injection Hr as ->. inversion Hcs. }
  destruct Hinv as (Hw & Hh & Hthreads).
  assert (forall i, i < length calls ->
            threads c !! i
              = Ret <$> (s_results (serial calls order w0) !! i) /\
            i ∈ order) as Hall.
  { intros i Hi. destruct (lookup_lt_is_Some_2 calls i Hi) as [Req HReq].
    destruct (Hdone i Hi) as [r Hr].
    pose proof (Hthreads i Req HReq) as Hthread.
    destruct (s_results (serial calls order w0) !! i) as [r' |] eqn:Hri.
    - split; [done |]. apply Hres. by rewrite Hri.
    - exfalso. rewrite Hr in Hthread. simpl in Hthread.
      destruct (ConnectPeers_critical_section Req) as (body & Hbody & _).
      rewrite Hbody in Hthread. discriminate. }
  split.
  { apply NoDup_Permutation; [done | apply NoDup_seq |].
    intros i. rewrite elem_of_seq. split.
    - intros Hi%Hrange. lia.
    - intros [_ Hi]. by apply Hall. }
  split; [done |]. split; [done |]. split; [done |].
  intros i Hi. by apply Hall.
Qed.
End SerializationClaim.

(** Two callers over [directory_world]: thread 0 asks for node 1 and
    thread 1 for node 2.  Thread 1 goes first. *)
Lemma ConnectPeers_calls_are_serialized_witness :
  exists c : Config P2P (gset N),
    exec [1; 1; 1; 1; 1; 0; 0; 0; 0; 0]
      (start [{[1%N]}; {[2%N]}] directory_world) = Some c /\
    serialized [{[1%N]}; {[2%N]}] directory_world c.
Proof.
  eexists. split; [vm_compute; reflexivity |].
  apply (ConnectPeers_calls_are_serialized [{[1%N]}; {[2%N]}]
           directory_world [1; 1; 1; 1; 1; 0; 0; 0; 0; 0]).
  vm_compute. reflexivity.
Defined.

(** While thread 1 is inside ConnectPeers, thread 0 cannot enter. *)
Example second_caller_waits :
  exec [1; 1; 0] (start [{[1%N]}; {[2%N]}] directory_world) = None /\
  (history <$> exec [1; 1; 1; 1; 1; 0] (start [{[1%N]}; {[2%N]}] directory_world))
    = Some [(1, EvLock); (1, EvPeerInfo [2%N]); (1, EvPeers);
            (1, EvManuallyTrack 2 (ip_of 2)); (1, EvUnlock); (0, EvLock)].
Proof. split; vm_compute; reflexivity. Qed.

(** ** Facts about the signature collection round *)

Module SignatureCollectionFacts.
Import SignatureCollection.

Section Facts.
Variable verify : list N -> list N -> list N -> bool.
Variable aggregate : list (list N) -> option (list N).
Variable connected : ConnectedCanonicalValidators.
Variable unsignedMessage : list N.

Local Abbreviation signerOf := (signerOf verify connected unsignedMessage).
Local Abbreviation accept := (accept verify connected unsignedMessage).
Local Abbreviation collect := (collect verify connected unsignedMessage).
Local Abbreviation handled := (handled verify connected unsignedMessage).
Local Abbreviation verifiedSigners :=
  (verifiedSigners verify connected unsignedMessage).
Local Abbreviation weightOf := (weightOf connected).

Lemma signerOf_lookup resp i vdr :
  signerOf resp = Some (i, vdr) -> ValidatorSet connected !! i = Some vdr.
Proof.
  unfold SignatureCollection.signerOf. intros Hs.
  repeat case_match; simplify_eq. done.
Qed.

Lemma weightOf_insert i vdr (S : gset nat) :
  i ∉ S -> ValidatorSet connected !! i = Some vdr ->
  weightOf ({[i]} ∪ S) = (weightOf S + Weight vdr)%Z.
Proof.
  intros Hi Hv. unfold SignatureCollection.weightOf.
  rewrite (sumZ_perm _ _ (fmap_Permutation _ _ _
                            (elements_union_singleton S i Hi))).
  rewrite fmap_cons. cbn [sumZ foldr]. rewrite Hv. simpl.
  apply Z.add_comm.
Qed.

Lemma verifiedSigners_cons resp resps :
  verifiedSigners (resp :: resps) =
    match signerOf resp with
    | Some (i, _) => {[i]} ∪ verifiedSigners resps
    | None => verifiedSigners resps
    end.
Proof.
  unfold SignatureCollection.verifiedSigners. simpl.
  by destruct (signerOf resp) as [[i vdr] |].
Qed.

Lemma accept_contributed st resp :
  contributed (accept st resp) =
    contributed st ∪ verifiedSigners [resp].
Proof.
  rewrite verifiedSigners_cons. unfold SignatureCollection.accept.
  destruct (signerOf resp) as [[i vdr] |]; [| set_solver].
  case_decide; simpl; set_solver.
Qed.

Lemma accept_weight st resp :
  achieved st = weightOf (contributed st) ->
  achieved (accept st resp) = weightOf (contributed (accept st resp)).
Proof.
  intros Hst. unfold SignatureCollection.accept.
  destruct (signerOf resp) as [[i vdr] |] eqn:Hs; [| done].
  case_decide; [done |]. simpl.
  rewrite (weightOf_insert i vdr) by eauto using signerOf_lookup.
  by rewrite Hst.
Qed.

Lemma handled_le quorumWeight st arrivals :
  handled quorumWeight st arrivals ≤ length arrivals.
Proof.
  revert st. induction arrivals as [| resp rest IH]; intros st; simpl;
    case_decide; try lia. specialize (IH (accept st resp)). lia.
Qed.

(** The state a round stops in: nothing but the dedup invariant and
    the responses it went through. *)
Lemma collect_state quorumWeight st arrivals :
  achieved st = weightOf (contributed st) ->
  let st' := collect quorumWeight st arrivals in
  contributed st' =
    contributed st
      ∪ verifiedSigners (take (handled quorumWeight st arrivals) arrivals)
  /\ achieved st' = weightOf (contributed st').
Proof.
  revert st. induction arrivals as [| resp rest IH]; intros st Hst; simpl.
  - case_decide; simpl; (split; [set_solver | done]).
  - case_decide; simpl; [split; [set_solver | done] |].
    destruct (IH (accept st resp) (accept_weight st resp Hst))
      as [Hc Hw].
    split; [| done]. rewrite Hc, accept_contributed.
    rewrite (verifiedSigners_cons resp (take _ rest)).
    rewrite (verifiedSigners_cons resp []).
    destruct (signerOf resp) as [[i vdr] |]; set_solver.
Qed.

(** A round that has not reached the quorum weight has gone through
    every response, and no shorter run of responses reaches it. *)
Lemma collect_stops_at_quorum quorumWeight st arrivals :
  achieved st = weightOf (contributed st) ->
  (forall k',
      k' < handled quorumWeight st arrivals ->
      (weightOf (contributed st ∪ verifiedSigners (take k' arrivals))
       < quorumWeight)%Z) /\
  (¬ (quorumWeight ≤ achieved (collect quorumWeight st arrivals))%Z ->
   handled quorumWeight st arrivals = length arrivals).
Proof.
  revert st. induction arrivals as [| resp rest IH]; intros st Hst; simpl.
  - case_decide; (split; [intros k' Hk'; lia | done]).
  - case_decide as Hq; [split; [intros k' Hk'; lia | done] |].
    destruct (IH (accept st resp) (accept_weight st resp Hst))
      as [Hless Hall].
    split.
    + intros [| k'] Hk'.
      * rewrite take_0.
        replace (contributed st ∪ verifiedSigners [])
          with (contributed st) by set_solver.
        rewrite <- Hst. lia.
      * specialize (Hless k' ltac:(lia)).
        rewrite accept_contributed in Hless.
        replace (contributed st ∪ verifiedSigners (take (S k') (resp :: rest)))
          with (contributed st ∪ verifiedSigners [resp]
                  ∪ verifiedSigners (take k' rest)); [done |].
        rewrite firstn_cons.
        rewrite (verifiedSigners_cons resp (take _ rest)).
        rewrite (verifiedSigners_cons resp []).
        destruct (signerOf resp) as [[i vdr] |]; set_solver.
    + intros Hnot. by rewrite Hall.
Qed.

Lemma sumZ_nonneg (l : list Z) :
  Forall (fun z => (0 ≤ z)%Z) l -> (0 ≤ sumZ l)%Z.
Proof.
  induction 1 as [| z l Hz _ IH]; [done |]. rewrite sumZ_cons. lia.
Qed.

(** With weights that are not negative, more validators weigh more. *)
Lemma weightOf_mono (signed more : gset nat) :
  Forall (fun vdr => (0 ≤ Weight vdr)%Z) (ValidatorSet connected) ->
  signed ⊆ more -> (weightOf signed ≤ weightOf more)%Z.
Proof.
  intros Hpos Hsub. unfold SignatureCollection.weightOf.
  rewrite (union_difference_L signed more Hsub).
  rewrite (sumZ_perm _ _ (fmap_Permutation _ _ _
             (elements_disj_union signed (more ∖ signed)
                ltac:(set_solver)))).
  rewrite fmap_app, sumZ_app.
  assert (0 ≤ sumZ ((fun i => from_option Weight 0%Z
                                (ValidatorSet connected !! i))
                      <$> elements (more ∖ signed)))%Z as Hrest.
  { apply sumZ_nonneg, Forall_fmap, Forall_forall. intros i _. simpl.
    destruct (ValidatorSet connected !! i) as [vdr |] eqn:Hi; [| done].
    simpl. by apply (Forall_lookup_1 _ _ _ _ Hpos Hi). }
  lia.
Qed.

Lemma verifiedSigners_take k arrivals :
  verifiedSigners (take k arrivals) ⊆ verifiedSigners arrivals.
Proof.
  revert k. induction arrivals as [| resp rest IH]; intros [| k]; simpl;
    try set_solver.
  rewrite !verifiedSigners_cons. specialize (IH k).
  destruct (signerOf resp) as [[i vdr] |]; set_solver.
Qed.

End Facts.
End SignatureCollectionFacts.

Example scenario_A_and_B :
  SignatureCollection.CollectSignatures toy_verify toy_aggregate
    abc_connected [] 67 [reply 1 65; reply 2 66] false =
  inl (SignatureCollection.mkAggregate [65%N; 66%N] {[0; 1]} 75 100).
Proof. vm_compute. reflexivity. Qed.

Example scenario_A_and_C :
  SignatureCollection.CollectSignatures toy_verify toy_aggregate
    abc_connected [] 67 [reply 1 65; reply 3 67] false =
  inr (SignatureCollection.QuorumNotMetError 65 67).
Proof. vm_compute. reflexivity. Qed.

(** Both nodes of a validator answer, and one signature is forged. *)
Example scenario_duplicate_and_forged :
  SignatureCollection.CollectSignatures toy_verify toy_aggregate
    abc_connected [] 67 [reply 1 65; reply 1 65; reply 2 0; reply 3 67] true =
  inr SignatureCollection.AggregationTimeoutError.
Proof. vm_compute. reflexivity. Qed.


(** ** More about ConnectPeers: what it returns and what it tracks *)

Section ConnectPeersMore.
Context {Net : Type} `{!Network Net}.
Implicit Types (Req : gset N) (peers : list Peer) (w : World Net).

Lemma idsOf_requested Req peers :
  idsOf (requested Req peers) = Req ∩ idsOf peers.
Proof.
  apply set_eq. intros n. unfold idsOf, requested.
  rewrite elem_of_intersection, !elem_of_list_to_set, !list_elem_of_fmap.
  split.
  - intros (p & -> & [Hp Hin]%list_elem_of_filter). split; [done |].
    by exists p.
  - intros [Hn (p & -> & Hin)]. exists p. split; [done |].
    by apply list_elem_of_filter.
Qed.

Lemma idsOf_take k peers : idsOf (take k peers) ⊆ idsOf peers.
Proof.
  intros n. unfold idsOf. rewrite !elem_of_list_to_set, !list_elem_of_fmap.
  intros (p & -> & Hp). exists p. split; [done |].
  by apply (subseteq_take k).
Qed.

Lemma elem_of_trackEvents nodeID ip peers :
  EvManuallyTrack nodeID ip ∈ trackEvents peers <-> mkPeer nodeID ip ∈ peers.
Proof.
  unfold trackEvents. rewrite list_elem_of_fmap. split.
  - intros ([n a] & [= -> ->] & Hp). done.
  - intros Hp. by exists (mkPeer nodeID ip).
Qed.

(** X1.  On every path ConnectPeers returns only requested nodes, and
    every node it asks the network to track is a requested node. *)
Theorem ConnectPeers_only_requested Req w :
  result_of (ConnectPeers Req) w ⊆ Req /\
  (forall nodeID ip,
      EvManuallyTrack nodeID ip ∈ events_of (ConnectPeers Req) w ->
      nodeID ∈ Req).
Proof.
  split; [apply ConnectPeers_subseteq |].
  intros nodeID ip. unfold events_of. rewrite ConnectPeers_run.
  case_decide; [set_solver |].
  destruct (infoAPI_Peers w) as [peers | err]; simpl; [| set_solver].
  rewrite !elem_of_cons, elem_of_app, elem_of_trackEvents.
  intros [? | [? | [? | [Hin | Hin]]]]; try done; [| set_solver].
  unfold requested in Hin. by apply list_elem_of_filter in Hin as [? _].
Qed.

(** X2.  When the live connections do not cover the request and the info
    API answers, ConnectPeers returns exactly the requested nodes that
    the peer list knows; so it returns the whole request exactly when
    every requested node is in the peer list. *)
Theorem ConnectPeers_directory_result Req peers w :
  length (PeerInfo (network w) (elements Req)) ≠ size Req ->
  infoAPI_Peers w = Ok peers ->
  result_of (ConnectPeers Req) w = Req ∩ idsOf peers /\
  (result_of (ConnectPeers Req) w = Req <-> Req ⊆ idsOf peers).
Proof.
  intros Hslow Hpeers.
  assert (result_of (ConnectPeers Req) w = Req ∩ idsOf peers) as Hres.
  { unfold result_of. rewrite ConnectPeers_run, decide_False, Hpeers by done.
    simpl. rewrite idsOf_requested.
    pose proof (iterations_le Req peers ∅) as Hle.
    destruct (decide (iterations Req peers ∅ = length peers)) as [-> | Hne].
    - by rewrite take_ge.
    - pose proof (iterations_early Req peers ∅) as Hearly.
      rewrite (left_id_L ∅ (∪)), idsOf_requested in Hearly.
      pose proof (idsOf_take (iterations Req peers ∅) peers).
      specialize (Hearly ltac:(set_solver) ltac:(lia)). set_solver. }
  split; [exact Hres |]. rewrite Hres. set_solver.
Qed.

(** X3.  On that path a node is returned exactly when the network was
    asked to track it, and it is tracked at an address the peer list
    gives for it. *)
Theorem ConnectPeers_returned_iff_tracked Req peers w :
  length (PeerInfo (network w) (elements Req)) ≠ size Req ->
  infoAPI_Peers w = Ok peers ->
  (forall nodeID,
      nodeID ∈ result_of (ConnectPeers Req) w <->
      exists ip, EvManuallyTrack nodeID ip ∈ events_of (ConnectPeers Req) w) /\
  (forall nodeID ip,
      EvManuallyTrack nodeID ip ∈ events_of (ConnectPeers Req) w ->
      mkPeer nodeID ip ∈ peers).
Proof.
  intros Hslow Hpeers. unfold result_of, events_of.
  rewrite ConnectPeers_run, decide_False, Hpeers by done. simpl.
  set (done := requested Req (take (iterations Req peers ∅) peers)).
  assert (forall nodeID ip,
            EvManuallyTrack nodeID ip
              ∈ EvLock :: EvPeerInfo (elements Req) :: EvPeers
                  :: trackEvents done ++ [EvUnlock]
            <-> mkPeer nodeID ip ∈ done) as Hev.
  { intros nodeID ip.
    rewrite !elem_of_cons, elem_of_app, elem_of_trackEvents. set_solver. }
  split.
  - intros nodeID. unfold idsOf.
    rewrite elem_of_list_to_set, list_elem_of_fmap. split.
    + intros ([n ip] & -> & Hp). exists ip. by apply Hev.
    + intros [ip Hip%Hev]. by exists (mkPeer nodeID ip).
  - intros nodeID ip Hin%Hev. unfold done, requested in Hin.
    apply list_elem_of_filter in Hin as [_ Hin].
    by apply (subseteq_take (iterations Req peers ∅)).
Qed.
End ConnectPeersMore.

Lemma ConnectPeers_directory_result_witness :
  result_of (ConnectPeers {[1%N; 2%N; 9%N]}) directory_world =
    {[1%N; 2%N; 9%N]}
      ∩ idsOf [peer_at 2; peer_at 3; peer_at 1; peer_at 4] /\
  (result_of (ConnectPeers {[1%N; 2%N; 9%N]}) directory_world =
     {[1%N; 2%N; 9%N]}
   <-> ({[1%N; 2%N; 9%N]} : gset N)
         ⊆ idsOf [peer_at 2; peer_at 3; peer_at 1; peer_at 4]).
Proof.
  apply (ConnectPeers_directory_result {[1%N; 2%N; 9%N]}
           [peer_at 2; peer_at 3; peer_at 1; peer_at 4] directory_world).
  - vm_compute. discriminate.
  - reflexivity.
Defined.

Lemma ConnectPeers_returned_iff_tracked_witness :
  (forall nodeID,
      nodeID ∈ result_of (ConnectPeers {[1%N; 2%N; 9%N]}) directory_world <->
      exists ip,
        EvManuallyTrack nodeID ip
          ∈ events_of (ConnectPeers {[1%N; 2%N; 9%N]}) directory_world) /\
  (forall nodeID ip,
      EvManuallyTrack nodeID ip
        ∈ events_of (ConnectPeers {[1%N; 2%N; 9%N]}) directory_world ->
      mkPeer nodeID ip ∈ [peer_at 2; peer_at 3; peer_at 1; peer_at 4]).
Proof.
  apply (ConnectPeers_returned_iff_tracked {[1%N; 2%N; 9%N]}
           [peer_at 2; peer_at 3; peer_at 1; peer_at 4] directory_world).
  - vm_compute. discriminate.
  - reflexivity.
Defined.

(** ** More about the node-to-validator index and the connected weight *)

(** X4.  For every validator set, the keys of the index map are exactly
    the nodes the validators list, and a node is mapped to an index
    exactly when the validator at that index lists it and no later
    validator does; so every stored index is an index of the set. *)
Theorem nodeValidatorIndexMap_spec (vs : list Validator) :
  dom (nodeValidatorIndexMap vs) = allNodeIDs vs /\
  (forall n i,
      nodeValidatorIndexMap vs !! n = Some i <->
      (exists v, vs !! i = Some v /\ n ∈ NodeIDs v) /\
      (forall j v, vs !! j = Some v -> n ∈ NodeIDs v -> j ≤ i)) /\
  (forall n i, nodeValidatorIndexMap vs !! n = Some i -> i < length vs).
Proof.
  split; [apply dom_nodeValidatorIndexMap |]. split.
  - intros n i. by rewrite nodeValidatorIndexMap_lookup, lastOwner_Some.
  - intros n i Hi. apply lookup_lt_is_Some.
    by apply (nodeValidatorIndexMap_in_range vs n).
Qed.

Section WeightMore.
Implicit Types (vs : list Validator) (C : gset N).

Lemma sumZ_const (A : Type) (g : A -> Z) (c : Z) (l : list A) :
  (forall x, x ∈ l -> g x = c) ->
  sumZ (g <$> l) = (Z.of_nat (length l) * c)%Z.
Proof.
  induction l as [| x l IH]; intros Hall; [done |].
  rewrite fmap_cons, sumZ_cons, length_cons.
  rewrite IH by (intros y Hy; apply Hall; by right).
  rewrite (Hall x) by by left. lia.
Qed.

Lemma filter_bind_NodeIDs (P : N -> Prop) `{!forall n, Decision (P n)} vs :
  filter P (vs ≫= NodeIDs) = vs ≫= (fun v => filter P (NodeIDs v)).
Proof.
  induction vs as [| v vs IH]; [done |].
  by rewrite !bind_cons, filter_app, IH.
Qed.

(** With no node listed twice, a node has one owner. *)
Lemma NoDup_owner vs i j vi vj n :
  NoDup (vs ≫= NodeIDs) ->
  vs !! i = Some vi -> vs !! j = Some vj ->
  n ∈ NodeIDs vi -> n ∈ NodeIDs vj -> i = j.
Proof.
  revert i j. induction vs as [| v vs IH]; intros i j Hnd Hi Hj Hni Hnj;
    [done |].
  rewrite bind_cons in Hnd. apply NoDup_app in Hnd as (_ & Hdisj & Hnd).
  assert (forall k u, vs !! k = Some u -> n ∈ NodeIDs u -> n ∈ vs ≫= NodeIDs)
    as Hin.
  { intros k u Hu Hn. apply list_elem_of_bind. exists u. split; [done |].
    apply list_elem_of_lookup. by exists k. }
  destruct i as [| i], j as [| j]; simpl in Hi, Hj; simplify_eq; [done | | |].
  - destruct (Hdisj n Hni (Hin j vj Hj Hnj)).
  - destruct (Hdisj n Hnj (Hin i vi Hi Hni)).
  - f_equal. by apply IH.
Qed.

Lemma nodeWeight_owner vs v n :
  NoDup (vs ≫= NodeIDs) -> v ∈ vs -> n ∈ NodeIDs v ->
  nodeWeight vs (nodeValidatorIndexMap vs) n = Weight v.
Proof.
  intros Hnd [i Hi]%list_elem_of_lookup Hn. unfold nodeWeight.
  rewrite nodeValidatorIndexMap_lookup.
  destruct (lastOwner n vs) as [k |] eqn:Hlast.
  - apply lastOwner_Some in Hlast as [(u & Hu & Hnu) _].
    rewrite (NoDup_owner vs k i u v n Hnd Hu Hi Hnu Hn) in *.
    simpl. by rewrite Hi.
  - exfalso. apply (proj1 (lastOwner_None vs n) Hlast v); [| done].
    apply list_elem_of_lookup. by exists i.
Qed.

Lemma sumZ_bind_connected (g : N -> Z) C (l : list Validator) :
  (forall v n, v ∈ l -> n ∈ NodeIDs v -> g n = Weight v) ->
  sumZ (g <$> (l ≫= connectedNodesOf C)) = weightPerConnectedNode l C.
Proof.
  unfold weightPerConnectedNode.
  induction l as [| v l IH]; intros Hg; [done |].
  rewrite bind_cons, fmap_app, sumZ_app, fmap_cons, sumZ_cons.
  rewrite IH by (intros u n Hu; apply Hg; by right). f_equal.
  apply sumZ_const. intros n Hn. apply (Hg v); [by left |].
  unfold connectedNodesOf in Hn. by apply list_elem_of_filter in Hn as [_ ?].
Qed.

(** The sum the loop computes over the connected nodes, by validator. *)
Lemma sum_nodeWeight_by_validator vs C :
  NoDup (vs ≫= NodeIDs) ->
  C ⊆ dom (nodeValidatorIndexMap vs) ->
  sumZ (nodeWeight vs (nodeValidatorIndexMap vs) <$> elements C) =
    weightPerConnectedNode vs C.
Proof.
  intros Hnd Hsub.
  assert (elements C ≡ₚ vs ≫= connectedNodesOf C) as Hperm.
  { unfold connectedNodesOf.
    rewrite <- (filter_bind_NodeIDs (fun n => n ∈ C)).
    apply NoDup_Permutation;
      [apply NoDup_elements | by apply NoDup_filter |].
    intros n. rewrite elem_of_elements, list_elem_of_filter.
    split; [| by intros [? _]]. intros Hn. split; [done |].
    apply Hsub in Hn. rewrite dom_nodeValidatorIndexMap in Hn.
    by apply elem_of_list_to_set in Hn. }
  rewrite (sumZ_perm _ _ (fmap_Permutation _ _ _ Hperm)).
  apply sumZ_bind_connected. intros v n Hv Hn.
  by apply nodeWeight_owner.
Qed.

(** With at most one connected node per validator, counting per node is
    counting per validator. *)
Lemma weightPerConnectedNode_once vs C :
  (forall v, v ∈ vs -> length (connectedNodesOf C v) ≤ 1) ->
  weightPerConnectedNode vs C = weightOfConnectedValidators vs C.
Proof.
  unfold weightPerConnectedNode, weightOfConnectedValidators.
  induction vs as [| v vs IH]; intros Hone; [done |].
  rewrite fmap_cons, sumZ_cons.
  rewrite IH by (intros u Hu; apply Hone; by right).
  pose proof (Hone v ltac:(by left)) as Hv.
  destruct (decide (Exists (fun node => node ∈ C) (NodeIDs v))) as [Hex | Hex].
  - rewrite filter_cons_True by done. rewrite fmap_cons, sumZ_cons.
    f_equal.
    assert (length (connectedNodesOf C v) ≠ 0) as Hne.
    { apply Exists_exists in Hex as (n & Hn & HnC).
      assert (n ∈ connectedNodesOf C v) as Hin
        by by apply list_elem_of_filter.
      destruct (connectedNodesOf C v); [| done].
      by apply not_elem_of_nil in Hin. }
    replace (length (connectedNodesOf C v)) with 1 by lia. lia.
  - rewrite filter_cons_False by done.
    assert (connectedNodesOf C v = []) as ->.
    { destruct (connectedNodesOf C v) as [| n l] eqn:Hl; [done |].
      exfalso. apply Hex. apply Exists_exists. exists n.
      assert (n ∈ connectedNodesOf C v) as Hin by (rewrite Hl; by left).
      unfold connectedNodesOf in Hin.
      by apply list_elem_of_filter in Hin as [? ?]. }
    simpl. lia.
Qed.

Lemma weightOfConnectedValidators_bounds vs C :
  (forall v, v ∈ vs -> (0 ≤ Weight v)%Z) ->
  (0 ≤ weightOfConnectedValidators vs C ≤ sumZ (Weight <$> vs))%Z.
Proof.
  unfold weightOfConnectedValidators.
  induction vs as [| v vs IH]; intros Hpos; [simpl; lia |].
  specialize (IH ltac:(intros u Hu; apply Hpos; by right)).
  pose proof (Hpos v ltac:(by left)).
  rewrite fmap_cons, sumZ_cons.
  destruct (decide (Exists (fun node => node ∈ C) (NodeIDs v))).
  - rewrite filter_cons_True by done. rewrite fmap_cons, sumZ_cons.
    lia.
  - rewrite filter_cons_False by done. lia.
Qed.
End WeightMore.

Section ConnectedWeightMore.
Context {Net : Type} `{!Network Net}.
Implicit Types (vs : list Validator) (w : World Net).

(** The connected weight of a set that lists no node twice. *)
Lemma connectedWeight_by_validator subnetID w vs total :
  validatorClient w subnetID = Ok (vs, total) ->
  NoDup (vs ≫= NodeIDs) ->
  result_of (ConnectToCanonicalValidators subnetID) w =
    Return (Ok (mkConnected
                  (wrap64 (weightPerConnectedNode vs
                             (result_of (ConnectPeers (allNodeIDs vs)) w)))
                  total vs (nodeValidatorIndexMap vs))).
Proof.
  intros Hvs Hnd. unfold result_of at 1.
  rewrite ConnectToCanonicalValidators_run, Hvs. cbv zeta.
  cbn [fst snd]. rewrite sum_nodeWeight_by_validator;
    [| done | apply ConnectPeers_subseteq].
  by rewrite dom_nodeValidatorIndexMap.
Qed.

(** X5.  When the resolved set lists no node twice, the connected weight
    ConnectToCanonicalValidators returns is, modulo 2^64, the sum over
    the validators of the weight times the number of connected nodes of
    the validator: a validator counts once per connected node. *)
Theorem ConnectedWeight_per_connected_node subnetID w vs total :
  validatorClient w subnetID = Ok (vs, total) ->
  NoDup (vs ≫= NodeIDs) ->
  exists connectedWeight : Z,
    result_of (ConnectToCanonicalValidators subnetID) w =
      Return (Ok (mkConnected connectedWeight total vs
                    (nodeValidatorIndexMap vs))) /\
    connectedWeight =
      wrap64 (weightPerConnectedNode vs
                (result_of (ConnectPeers (allNodeIDs vs)) w)).
Proof.
  intros Hvs Hnd. eexists. split; [| reflexivity].
  by apply connectedWeight_by_validator.
Qed.

(** X6.  When moreover no validator has two connected nodes, the weights
    are not negative and sum to less than 2^64, the connected weight is
    the sum of the weights of the validators with a connected node, and
    lies between 0 and the sum of all the weights. *)
Theorem ConnectedWeight_one_node_per_validator subnetID w vs total :
  validatorClient w subnetID = Ok (vs, total) ->
  NoDup (vs ≫= NodeIDs) ->
  Forall (fun v =>
            length (connectedNodesOf
                      (result_of (ConnectPeers (allNodeIDs vs)) w) v) ≤ 1)
    vs ->
  Forall (fun v => (0 ≤ Weight v)%Z) vs ->
  (sumZ (Weight <$> vs) < 2 ^ 64)%Z ->
  exists connectedWeight : Z,
    result_of (ConnectToCanonicalValidators subnetID) w =
      Return (Ok (mkConnected connectedWeight total vs
                    (nodeValidatorIndexMap vs))) /\
    connectedWeight =
      weightOfConnectedValidators vs
        (result_of (ConnectPeers (allNodeIDs vs)) w) /\
    (0 ≤ connectedWeight ≤ sumZ (Weight <$> vs))%Z.
Proof.
  intros Hvs Hnd Hone Hpos Hsum.
  rewrite (connectedWeight_by_validator subnetID w vs total Hvs Hnd).
  rewrite Forall_forall in Hone. rewrite Forall_forall in Hpos.
  rewrite (weightPerConnectedNode_once _ _ Hone).
  pose proof (weightOfConnectedValidators_bounds vs
                (result_of (ConnectPeers (allNodeIDs vs)) w) Hpos) as Hb.
  eexists. split; [reflexivity |].
  unfold wrap64. rewrite Z.mod_small by lia. done.
Qed.
End ConnectedWeightMore.

Lemma ConnectedWeight_per_connected_node_witness :
  exists connectedWeight : Z,
    result_of (ConnectToCanonicalValidators 7%N) twin_world =
      Return (Ok (mkConnected connectedWeight 10 [twin_validator]
                    (nodeValidatorIndexMap [twin_validator]))) /\
    connectedWeight =
      wrap64 (weightPerConnectedNode [twin_validator]
                (result_of (ConnectPeers (allNodeIDs [twin_validator]))
                   twin_world)).
Proof.
  apply (ConnectedWeight_per_connected_node 7%N twin_world
           [twin_validator] 10%Z).
  - reflexivity.
  - apply (bool_decide_unpack _). vm_compute. exact I.
Defined.

Lemma ConnectedWeight_one_node_per_validator_witness :
  exists connectedWeight : Z,
    result_of (ConnectToCanonicalValidators 7%N) one_of_two_world =
      Return (Ok (mkConnected connectedWeight 30 two_validators
                    (nodeValidatorIndexMap two_validators))) /\
    connectedWeight =
      weightOfConnectedValidators two_validators
        (result_of (ConnectPeers (allNodeIDs two_validators))
           one_of_two_world) /\
    (0 ≤ connectedWeight ≤ sumZ (Weight <$> two_validators))%Z.
Proof.
  apply (ConnectedWeight_one_node_per_validator 7%N one_of_two_world
           two_validators 30%Z).
  - reflexivity.
  - apply (bool_decide_unpack _). vm_compute. exact I.
  - apply (bool_decide_unpack _). vm_compute. exact I.
  - apply (bool_decide_unpack _). vm_compute. exact I.
  - vm_compute. reflexivity.
Defined.

Example one_of_two_connected :
  result_of (ConnectToCanonicalValidators 7%N) one_of_two_world =
    Return (Ok (mkConnected 10 30 two_validators
                  (nodeValidatorIndexMap two_validators))).
Proof. vm_compute. reflexivity. Qed.

(** ** Concurrent callers never block each other for good *)

Section Progress.
Context {Net : Type} `{!Network Net}.
Implicit Types (calls : list (gset N)) (c : Config Net (gset N)).

(** The thread inside its critical section can make its next call. *)
Lemma in_critical_section_steps c h p :
  mutex c = Some h -> threads c !! h = Some p -> in_critical_section p ->
  exists c', step_thread h c = Some c'.
Proof.
  intros Hmu Hp Hcs. unfold step_thread. rewrite Hp, Hmu.
  destruct Hcs as [r k Hk | X op k Hop Hk].
  - simpl. by eexists.
  - assert (mutex_after op h (Some h) = Some (Some h)) as ->
      by (by destruct op).
    destruct (handle op (shared c)) as [x w]. by eexists.
Qed.

(** X7.  Concurrent callers of ConnectPeers cannot deadlock: in every
    configuration they reach, either every caller has returned, or some
    caller can make its next call (the one holding the lock, or, when
    the lock is free, any caller that has not started). *)
Theorem ConnectPeers_callers_make_progress calls (w0 : World Net)
    schedule c :
  exec schedule (start calls w0) = Some c ->
  (forall i, i < length calls -> exists r, threads c !! i = Some (Ret r)) \/
  (exists i c', step_thread i c = Some c').
Proof.
  intros Hexec.
  destruct (exec_serialized calls w0 schedule _ c
              (start_serialized calls w0) Hexec)
    as (order & Hnd & Hres & Hrange & Hlen & Hinv).
  destruct (mutex c) as [h |] eqn:Hmu.
  - right. destruct Hinv as (Req & p & pre & _ & _ & Hp & Hcs & _).
    exists h. by apply (in_critical_section_steps c h p).
  - destruct Hinv as (_ & _ & Hthreads).
    destruct (decide (Forall (fun i => i ∈ order) (seq 0 (length calls))))
      as [Hall | Hsome].
    + left. intros i Hi.
      destruct (lookup_lt_is_Some_2 calls i Hi) as [Req HReq].
      rewrite Forall_forall in Hall.
      destruct (proj1 (Hres i) (Hall i ltac:(apply elem_of_seq; lia)))
        as [r Hr].
      exists r. by rewrite (Hthreads i Req HReq), Hr.
    + right. apply not_Forall_Exists in Hsome; [| apply _].
      apply Exists_exists in Hsome as (i & [_ Hi]%elem_of_seq & Hnot).
      destruct (lookup_lt_is_Some_2 calls i ltac:(lia)) as [Req HReq].
      assert (s_results (serial calls order w0) !! i = None) as Hnone.
      { destruct (s_results (serial calls order w0) !! i) eqn:Hr; [| done].
        exfalso. apply Hnot, Hres. by rewrite Hr. }
      pose proof (Hthreads i Req HReq) as Hthread. rewrite Hnone in Hthread.
      destruct (ConnectPeers_critical_section Req) as (body & Hbody & _).
      exists i. unfold step_thread. rewrite Hthread, Hmu.
      change (thread_of Req None) with (ConnectPeers Req). rewrite Hbody.
      simpl. by eexists.
Qed.
End Progress.

Lemma ConnectPeers_callers_make_progress_witness :
  exists c : Config P2P (gset N),
    exec [1; 1; 1] (start [{[1%N]}; {[2%N]}] directory_world) = Some c /\
    ((forall i, i < 2 -> exists r, threads c !! i = Some (Ret r)) \/
     (exists i c', step_thread i c = Some c')).
Proof.
  eexists. split; [vm_compute; reflexivity |].
  apply (ConnectPeers_callers_make_progress [{[1%N]}; {[2%N]}]
           directory_world [1; 1; 1]).
  vm_compute. reflexivity.
Defined.

(** ** NewNetwork *)

Section SetupFacts.
Context {Net : Type} `{!Network Net}.
Implicit Types (w : World Net) (sw : SetupWorld Net).

Lemma run_setup_sbind {A B : Type} (p : setup A) (f : A -> setup B) sw :
  run_setup (sbind p f) sw =
    (let '(a, sw1, evs1) := run_setup p sw in
     let '(b, sw2, evs2) := run_setup (f a) sw1 in
     (b, sw2, evs1 ++ evs2)).
Proof.
  revert sw. induction p as [a | X op k IH]; intros sw; simpl.
  - by destruct (run_setup (f a) sw) as [[b sw2] evs2].
  - destruct (setup_handle op sw) as [x sw1]. rewrite IH.
    destruct (run_setup (k x) sw1) as [[a sw2] evs1].
    by destruct (run_setup (f a) sw2) as [[b sw3] evs2].
Qed.

Lemma with_methods_world_id sw : with_methods_world sw (methods_world sw) = sw.
Proof. by destruct sw. Qed.

Lemma with_methods_world_twice sw w1 w2 :
  with_methods_world (with_methods_world sw w1) w2 = with_methods_world sw w2.
Proof. reflexivity. Qed.

Lemma run_setup_method {R : Type} (p : prog R) sw :
  run_setup (method p) sw =
    (let '(r, w, evs) := run p (methods_world sw) in
     (r, with_methods_world sw w, SEvNet <$> evs)).
Proof.
  revert sw. induction p as [r | X op k IH]; intros sw; simpl.
  - by rewrite with_methods_world_id.
  - destruct (handle op (methods_world sw)) as [x w1]. rewrite IH. simpl.
    by destruct (run (k x) w1) as [[r w2] evs].
Qed.

(** No call of a method changes what the validator client answers. *)
Lemma run_validatorClient {R : Type} (p : prog R) w :
  validatorClient (world_after p w) = validatorClient w.
Proof.
  unfold world_after. revert w.
  induction p as [r | X op k IH]; intros w; simpl; [done |].
  destruct (handle op w) as [x w1] eqn:Hh. specialize (IH x w1).
  destruct (run (k x) w1) as [[r w2] evs]. simpl in *. rewrite IH.
  destruct op; simpl in Hh; by injection Hh as <- <-.
Qed.

Lemma connectToNonPrimaryNetworkPeers_run cfg sb w :
  run (connectToNonPrimaryNetworkPeers cfg sb) w =
    match validatorClient w (config.GetSubnetID sb) with
    | Err err =>
        (Return (Some err), w,
         [EvGetCurrentCanonicalValidatorSet (config.GetSubnetID sb);
          EvLogError "Failed to connect to canonical validators"])
    | Ok (vs, total) =>
        (Return None,
         world_after (ConnectPeers (dom (nodeValidatorIndexMap vs))) w,
         EvGetCurrentCanonicalValidatorSet (config.GetSubnetID sb)
           :: events_of (ConnectPeers (dom (nodeValidatorIndexMap vs))) w)
    end.
Proof.
  unfold connectToNonPrimaryNetworkPeers. rewrite run_bind.
  rewrite ConnectToCanonicalValidators_run.
  destruct (validatorClient w (config.GetSubnetID sb)) as [[vs total] | err].
  - cbv zeta. simpl. by rewrite app_nil_r.
  - reflexivity.
Qed.

Lemma resolvedSubnets_app evs1 evs2 :
  resolvedSubnets (evs1 ++ evs2) = resolvedSubnets evs1 ++ resolvedSubnets evs2.
Proof. unfold resolvedSubnets. apply omap_app. Qed.

(** ConnectPeers never asks for a validator set. *)
Lemma ConnectPeers_resolves_nothing Req w :
  resolvedSubnets (SEvNet <$> events_of (ConnectPeers Req) w) = [].
Proof.
  unfold events_of. rewrite ConnectPeers_run.
  case_decide; [done |].
  destruct (infoAPI_Peers w) as [peers | err]; [| done]. simpl.
  rewrite fmap_app, resolvedSubnets_app. simpl.
  rewrite app_nil_r. unfold trackEvents.
  induction (requested Req (take (iterations Req peers ∅) peers))
    as [| p l IH]; [done |]. exact IH.
Qed.

(** The loop over the source blockchains: it returns the error of the
    first subnet that cannot be resolved, asks for the validator sets in
    order up to that subnet, and only calls methods. *)
Lemma connectAll_run cfg sbs sw :
  exists w' evs,
    run_setup (connectAll cfg sbs) sw =
      (Return (snd <$> firstFailure (validatorClient (methods_world sw))
                         (config.GetSubnetID <$> sbs)),
       with_methods_world sw w', SEvNet <$> evs) /\
    validatorClient w' = validatorClient (methods_world sw) /\
    resolvedSubnets (SEvNet <$> evs) =
      match firstFailure (validatorClient (methods_world sw))
              (config.GetSubnetID <$> sbs) with
      | Some (k, _) => take (S k) (config.GetSubnetID <$> sbs)
      | None => config.GetSubnetID <$> sbs
      end.
Proof.
  revert sw. induction sbs as [| sb rest IH]; intros sw.
  - exists (methods_world sw), []. simpl.
    by rewrite with_methods_world_id.
  - cbn [connectAll]. rewrite run_setup_sbind, run_setup_method.
    rewrite connectToNonPrimaryNetworkPeers_run.
    rewrite fmap_cons. cbn [firstFailure].
    destruct (validatorClient (methods_world sw) (config.GetSubnetID sb))
      as [[vs total] | err] eqn:Hvs.
    + set (w1 := world_after (ConnectPeers (dom (nodeValidatorIndexMap vs)))
                   (methods_world sw)).
      assert (validatorClient w1 = validatorClient (methods_world sw)) as Hvc
        by apply run_validatorClient.
      destruct (IH (with_methods_world sw w1)) as (w' & evs & Hrun & Hw' & Hres).
      cbn [methods_world with_methods_world] in Hrun, Hw', Hres.
      rewrite Hvc in Hrun, Hw', Hres.
      exists w', ((EvGetCurrentCanonicalValidatorSet (config.GetSubnetID sb)
                     :: events_of
                          (ConnectPeers (dom (nodeValidatorIndexMap vs)))
                          (methods_world sw)) ++ evs).
      split; [| split; [done |]].
      * rewrite Hrun, fmap_app.
        by destruct (firstFailure (validatorClient (methods_world sw))
                       (config.GetSubnetID <$> rest)) as [[k e] |].
      * rewrite fmap_app, resolvedSubnets_app, fmap_cons.
        change (resolvedSubnets (?e :: ?l))
          with (config.GetSubnetID sb :: resolvedSubnets l).
        rewrite ConnectPeers_resolves_nothing, Hres.
        by destruct (firstFailure (validatorClient (methods_world sw))
                       (config.GetSubnetID <$> rest)) as [[k e] |].
    + exists (methods_world sw),
        [EvGetCurrentCanonicalValidatorSet (config.GetSubnetID sb);
         EvLogError "Failed to connect to canonical validators"].
      split; [done |]. split; [done |]. simpl. by rewrite take_0.
Qed.

Lemma run_setup_logError msg err sw :
  run_setup (logError msg err) sw = (tt, sw, [SEvNet (EvLogError msg)]).
Proof. unfold logError. simpl. by rewrite with_methods_world_id. Qed.

Lemma run_setup_failed {A : Type} msg err sw :
  run_setup (sbind (logError msg err)
               (fun _ => SRet (Return (@Err A err)))) sw =
    (Return (Err err), sw, [SEvNet (EvLogError msg)]).
Proof. by rewrite run_setup_sbind, run_setup_logError. Qed.

(** NewNetwork, path by path. *)
Lemma NewNetwork_run registerer cfg sw :
  run_setup (NewNetwork registerer cfg) sw =
    match newHandler sw registerer with
    | Err err =>
        (Return (Err err), sw,
         [SEvNewRelayerExternalHandler registerer;
          SEvNet (EvLogError "Failed to create p2p network handler")])
    | Ok handler =>
    match newInfoAPI sw (config.InfoAPI cfg) with
    | Err err =>
        (Return (Err err), sw,
         [SEvNewRelayerExternalHandler registerer;
          SEvNewInfoAPI (config.InfoAPI cfg);
          SEvNet (EvLogError "Failed to create info API")])
    | Ok infoAPI =>
    match getNetworkID sw with
    | Err err =>
        (Return (Err err), sw,
         [SEvNewRelayerExternalHandler registerer;
          SEvNewInfoAPI (config.InfoAPI cfg); SEvGetNetworkID;
          SEvNet (EvLogError "Failed to get network ID")])
    | Ok networkID =>
    match newTestNetwork sw networkID
            (trackedSubnetsOf (config.SourceBlockchains cfg)) handler with
    | Err err =>
        (Return (Err err), sw,
         [SEvNewRelayerExternalHandler registerer;
          SEvNewInfoAPI (config.InfoAPI cfg); SEvGetNetworkID;
          SEvNewTestNetwork networkID
            (trackedSubnetsOf (config.SourceBlockchains cfg)) handler;
          SEvNet (EvLogError "Failed to create test network")])
    | Ok testNetwork =>
        let created :=
          [SEvNewRelayerExternalHandler registerer;
           SEvNewInfoAPI (config.InfoAPI cfg); SEvGetNetworkID;
           SEvNewTestNetwork networkID
             (trackedSubnetsOf (config.SourceBlockchains cfg)) handler;
           SEvNewCanonicalValidatorClient (config.PChainAPI cfg)] in
        let '(r, sw', evs) :=
          run_setup (connectAll cfg (config.SourceBlockchains cfg)) sw in
        match r with
        | Panics msg => (Panics msg, sw', created ++ evs)
        | Return (Some err) => (Return (Err err), sw', created ++ evs)
        | Return None =>
            (Return (Ok (mkAppRequestNetwork testNetwork handler infoAPI
                           (newValidatorClient sw (config.PChainAPI cfg)))),
             started sw', created ++ evs ++ [SEvGoDispatch testNetwork])
        end
    end
    end
    end
    end.
Proof.
  unfold NewNetwork.
  rewrite run_setup_sbind. cbn [run_setup scall setup_handle setup_event_of].
  destruct (newHandler sw registerer) as [handler | err];
    [| by rewrite run_setup_failed].
  rewrite run_setup_sbind. cbn [run_setup scall setup_handle setup_event_of].
  destruct (newInfoAPI sw (config.InfoAPI cfg)) as [infoAPI | err];
    [| by rewrite run_setup_failed].
  rewrite run_setup_sbind. cbn [run_setup scall setup_handle setup_event_of].
  destruct (getNetworkID sw) as [networkID | err];
    [| by rewrite run_setup_failed].
  rewrite run_setup_sbind. cbn [run_setup scall setup_handle setup_event_of].
  destruct (newTestNetwork sw networkID
              (trackedSubnetsOf (config.SourceBlockchains cfg)) handler)
    as [testNetwork | err]; [| by rewrite run_setup_failed].
  rewrite run_setup_sbind. cbn [run_setup scall setup_handle setup_event_of].
  rewrite run_setup_sbind.
  destruct (run_setup (connectAll cfg (config.SourceBlockchains cfg)) sw)
    as [[r sw'] evs].
  destruct r as [[err |] | msg]; cbn [run_setup]; cbn [app];
    rewrite ?app_nil_r; reflexivity.
Qed.

Lemma trackedSubnetsOf_spec sbs :
  trackedSubnetsOf sbs = list_to_set (config.GetSubnetID <$> sbs).
Proof.
  unfold trackedSubnetsOf.
  assert (forall acc : gset N,
            foldl (fun trackedSubnets sb =>
                     trackedSubnets ∪ {[config.GetSubnetID sb]}) acc sbs
            = acc ∪ list_to_set (config.GetSubnetID <$> sbs)) as Hacc.
  { induction sbs as [| sb rest IH]; intros acc; simpl; [set_solver |].
    rewrite IH. set_solver. }
  rewrite Hacc. set_solver.
Qed.

Lemma firstFailure_None resolve subnets :
  firstFailure resolve subnets = None <->
  Forall (fun subnetID => exists vs total, resolve subnetID = Ok (vs, total))
    subnets.
Proof.
  induction subnets as [| s rest IH]; simpl; [by split |].
  rewrite Forall_cons. destruct (resolve s) as [[vs total] | err].
  - destruct (firstFailure resolve rest) as [[k e] |].
    + split; [done |]. intros [_ Hrest]. by apply IH in Hrest.
    + split; [| done]. intros _. split; [by exists vs, total | by apply IH].
  - split; [done |]. by intros [(vs & total & ?) _].
Qed.
End SetupFacts.

Section NewNetworkClaims.
Context {Net : Type} `{!Network Net}.
Implicit Types (sw : SetupWorld Net).

(** X20.  connectToNonPrimaryNetworkPeers returns an error exactly when
    the validator set of the source blockchain cannot be resolved: it is
    then the error of the validator client, logged once, and neither the
    lock nor the network has been touched.  When the set is resolved it
    returns nil, whatever weight ConnectPeers could connect to.  It
    never panics. *)
Theorem connectToNonPrimaryNetworkPeers_outcome cfg sb (w : World Net) :
  (forall err,
      result_of (connectToNonPrimaryNetworkPeers cfg sb) w
        = Return (Some err)
      <-> validatorClient w (config.GetSubnetID sb) = Err err) /\
  (result_of (connectToNonPrimaryNetworkPeers cfg sb) w = Return None
   <-> exists vs total,
         validatorClient w (config.GetSubnetID sb) = Ok (vs, total)) /\
  (forall err,
      validatorClient w (config.GetSubnetID sb) = Err err ->
      run (connectToNonPrimaryNetworkPeers cfg sb) w =
        (Return (Some err), w,
         [EvGetCurrentCanonicalValidatorSet (config.GetSubnetID sb);
          EvLogError "Failed to connect to canonical validators"])) /\
  (forall msg,
      result_of (connectToNonPrimaryNetworkPeers cfg sb) w ≠ Panics msg).
Proof.
  unfold result_of. rewrite connectToNonPrimaryNetworkPeers_run.
  destruct (validatorClient w (config.GetSubnetID sb)) as [[vs total] | err];
    simpl.
  - split; [by intros err; split |]. split; [| split; [done | done]].
    split; [by exists vs, total | done].
  - split; [intros err'; split; congruence |].
    split; [| split; [by intros ? [= <-] | done]].
    split; [done | by intros (? & ? & ?)].
Qed.

(** X8.  NewNetwork returns an [AppRequestNetwork] exactly when the four
    constructors succeed (the test network being created with the
    network ID of the info API, tracking the subnets of the source
    blockchains) and the validator set of every source blockchain can be
    resolved; the weight it could connect to plays no part.  It never
    panics. *)
Theorem NewNetwork_succeeds_iff registerer cfg sw :
  (forall arn,
      (run_setup (NewNetwork registerer cfg) sw).1.1 = Return (Ok arn) <->
      exists handler infoAPI networkID testNetwork,
        newHandler sw registerer = Ok handler /\
        newInfoAPI sw (config.InfoAPI cfg) = Ok infoAPI /\
        getNetworkID sw = Ok networkID /\
        newTestNetwork sw networkID
          (list_to_set (config.GetSubnetID <$> config.SourceBlockchains cfg))
          handler = Ok testNetwork /\
        Forall (fun sb =>
                  exists vs total,
                    validatorClient (methods_world sw)
                      (config.GetSubnetID sb) = Ok (vs, total))
          (config.SourceBlockchains cfg) /\
        arn = mkAppRequestNetwork testNetwork handler infoAPI
                (newValidatorClient sw (config.PChainAPI cfg))) /\
  (forall msg,
      (run_setup (NewNetwork registerer cfg) sw).1.1 ≠ Panics msg).
Proof.
  rewrite NewNetwork_run, trackedSubnetsOf_spec.
  destruct (newHandler sw registerer) as [handler | err]; simpl.
  2: { split; [| done]. intros arn. split; [done |].
       by intros (? & ? & ? & ? & ? & _). }
  destruct (newInfoAPI sw (config.InfoAPI cfg)) as [infoAPI | err]; simpl.
  2: { split; [| done]. intros arn. split; [done |].
       by intros (? & ? & ? & ? & _ & ? & _). }
  destruct (getNetworkID sw) as [networkID | err]; simpl.
  2: { split; [| done]. intros arn. split; [done |].
       by intros (? & ? & ? & ? & _ & _ & ? & _). }
  destruct (newTestNetwork sw networkID _ handler) as [testNetwork | err]
    eqn:Hnet; simpl.
  2: { split; [| done]. intros arn. split; [done |].
       intros (? & ? & ? & ? & [= <-] & _ & [= <-] & Hnet' & _).
       congruence. }
  destruct (connectAll_run cfg (config.SourceBlockchains cfg) sw)
    as (w' & evs & Hrun & _ & _).
  rewrite Hrun.
  pose proof (firstFailure_None (validatorClient (methods_world sw))
                (config.GetSubnetID <$> config.SourceBlockchains cfg))
    as Hnone.
  rewrite Forall_fmap in Hnone.
  destruct (firstFailure (validatorClient (methods_world sw))
              (config.GetSubnetID <$> config.SourceBlockchains cfg))
    as [[k err] |]; simpl.
  - split; [| done]. intros arn. split; [done |].
    intros (? & ? & ? & ? & _ & _ & _ & _ & Hall & _).
    by apply Hnone in Hall.
  - split; [| done]. intros arn. split.
    + intros [= <-]. exists handler, infoAPI, networkID, testNetwork.
      repeat split; try done. by apply Hnone.
    + intros (? & ? & ? & ? & [= <-] & [= <-] & [= <-] & Hnet' & _ & ->).
      rewrite Hnet in Hnet'. by injection Hnet' as <-.
Qed.

(** X9.  When the dispatch goroutine is not running before, it runs
    after NewNetwork exactly when NewNetwork has returned an
    [AppRequestNetwork]; it is then started last, on the network of the
    result, and only once. *)
Theorem NewNetwork_dispatches_on_success registerer cfg sw :
  dispatching sw = false ->
  (dispatching (run_setup (NewNetwork registerer cfg) sw).1.2 = true <->
   exists arn,
     (run_setup (NewNetwork registerer cfg) sw).1.1 = Return (Ok arn)) /\
  (forall arn,
      (run_setup (NewNetwork registerer cfg) sw).1.1 = Return (Ok arn) ->
      exists evs,
        (run_setup (NewNetwork registerer cfg) sw).2 =
          evs ++ [SEvGoDispatch (arn_network arn)] /\
        forall network, SEvGoDispatch network ∉ evs).
Proof.
  intros Hoff. rewrite NewNetwork_run.
  destruct (newHandler sw registerer) as [handler | err]; simpl.
  2: { rewrite Hoff. split; [| done]. split; [done | by intros [? ?]]. }
  destruct (newInfoAPI sw (config.InfoAPI cfg)) as [infoAPI | err]; simpl.
  2: { rewrite Hoff. split; [| done]. split; [done | by intros [? ?]]. }
  destruct (getNetworkID sw) as [networkID | err]; simpl.
  2: { rewrite Hoff. split; [| done]. split; [done | by intros [? ?]]. }
  destruct (newTestNetwork sw networkID _ handler) as [testNetwork | err];
    simpl.
  2: { rewrite Hoff. split; [| done]. split; [done | by intros [? ?]]. }
  destruct (connectAll_run cfg (config.SourceBlockchains cfg) sw)
    as (w' & evs & Hrun & _ & _).
  rewrite Hrun.
  destruct (firstFailure (validatorClient (methods_world sw))
              (config.GetSubnetID <$> config.SourceBlockchains cfg))
    as [[k err] |]; simpl.
  - rewrite Hoff. split; [| done]. split; [done | by intros [? ?]].
  - split; [split; [by eexists | done] |].
    intros arn [= <-]. simpl. eexists (_ :: _ :: _ :: _ :: _ :: _).
    split; [reflexivity |].
    intros network. rewrite !elem_of_cons, list_elem_of_fmap.
    intros [? | [? | [? | [? | [? | (? & ? & ?)]]]]]; done.
Qed.

(** X10.  When a constructor fails, NewNetwork returns its error after
    logging it, leaves the world as it was, and has asked for no
    validator set and called no method of the network but the logger. *)
Theorem NewNetwork_constructor_failure registerer cfg sw err :
  newHandler sw registerer = Err err \/
  (exists handler,
      newHandler sw registerer = Ok handler /\
      (newInfoAPI sw (config.InfoAPI cfg) = Err err \/
       exists infoAPI,
         newInfoAPI sw (config.InfoAPI cfg) = Ok infoAPI /\
         (getNetworkID sw = Err err \/
          exists networkID,
            getNetworkID sw = Ok networkID /\
            newTestNetwork sw networkID
              (trackedSubnetsOf (config.SourceBlockchains cfg)) handler
              = Err err))) ->
  exists created msg,
    run_setup (NewNetwork registerer cfg) sw =
      (Return (Err err), sw, created ++ [SEvNet (EvLogError msg)]) /\
    resolvedSubnets (created ++ [SEvNet (EvLogError msg)]) = [] /\
    forall ev, SEvNet ev ∉ created.
Proof.
  intros Hfail. rewrite NewNetwork_run.
  destruct Hfail as [-> | (handler & -> & Hfail)].
  { eexists [_], _. split; [reflexivity |]. split; [done |].
    intros ev. rewrite !elem_of_cons. by intros [? | ?%elem_of_nil]. }
  destruct Hfail as [-> | (infoAPI & -> & Hfail)].
  { eexists [_; _], _. split; [reflexivity |]. split; [done |].
    intros ev. rewrite !elem_of_cons. by intros [? | [? | ?%elem_of_nil]]. }
  destruct Hfail as [-> | (networkID & -> & ->)].
  { eexists [_; _; _], _. split; [reflexivity |]. split; [done |].
    intros ev. rewrite !elem_of_cons.
    by intros [? | [? | [? | ?%elem_of_nil]]]. }
  eexists [_; _; _; _], _. split; [reflexivity |]. split; [done |].
  intros ev. rewrite !elem_of_cons.
  by intros [? | [? | [? | [? | ?%elem_of_nil]]]].
Qed.

(** X11.  When the constructors succeed, NewNetwork asks for the
    validator sets of the source blockchains in the order of the
    configuration and stops at the first that cannot be resolved: it
    returns that error, and the later source blockchains are not asked
    for. *)
Theorem NewNetwork_resolves_in_order registerer cfg sw
    handler infoAPI networkID testNetwork :
  newHandler sw registerer = Ok handler ->
  newInfoAPI sw (config.InfoAPI cfg) = Ok infoAPI ->
  getNetworkID sw = Ok networkID ->
  newTestNetwork sw networkID
    (trackedSubnetsOf (config.SourceBlockchains cfg)) handler
    = Ok testNetwork ->
  let subnets := config.GetSubnetID <$> config.SourceBlockchains cfg in
  match firstFailure (validatorClient (methods_world sw)) subnets with
  | Some (k, err) =>
      (run_setup (NewNetwork registerer cfg) sw).1.1 = Return (Err err) /\
      resolvedSubnets (run_setup (NewNetwork registerer cfg) sw).2
        = take (S k) subnets
  | None =>
      resolvedSubnets (run_setup (NewNetwork registerer cfg) sw).2 = subnets
  end.
Proof.
  intros Hh Hi Hn Ht subnets. rewrite NewNetwork_run, Hh, Hi, Hn, Ht.
  destruct (connectAll_run cfg (config.SourceBlockchains cfg) sw)
    as (w' & evs & Hrun & _ & Hres).
  rewrite Hrun. fold subnets in Hres |- *.
  destruct (firstFailure (validatorClient (methods_world sw)) subnets)
    as [[k err] |]; simpl.
  - split; [done |]. exact Hres.
  - rewrite resolvedSubnets_app. simpl. rewrite app_nil_r. exact Hres.
Qed.
End NewNetworkClaims.

(** NewNetwork over a network with no connection and a silent info API:
    both subnets resolve, nothing is connected, and it succeeds. *)
Example NewNetwork_without_stake :
  (run_setup (NewNetwork 0%N two_sources)
     (constructors_ok directory_down_world)).1.1 =
    Return (Ok (mkAppRequestNetwork 3 1 2 4)) /\
  result_of (ConnectToCanonicalValidators 7%N) directory_down_world =
    Return (Ok (mkConnected 0 30 two_validators
                  (nodeValidatorIndexMap two_validators))).
Proof. split; vm_compute; reflexivity. Qed.

Lemma NewNetwork_dispatches_on_success_witness :
  (dispatching
     (run_setup (NewNetwork 0%N two_sources)
        (constructors_ok directory_down_world)).1.2 = true <->
   exists arn,
     (run_setup (NewNetwork 0%N two_sources)
        (constructors_ok directory_down_world)).1.1 = Return (Ok arn)) /\
  (forall arn,
      (run_setup (NewNetwork 0%N two_sources)
         (constructors_ok directory_down_world)).1.1 = Return (Ok arn) ->
      exists evs,
        (run_setup (NewNetwork 0%N two_sources)
           (constructors_ok directory_down_world)).2 =
          evs ++ [SEvGoDispatch (arn_network arn)] /\
        forall network, SEvGoDispatch network ∉ evs).
Proof.
  apply (NewNetwork_dispatches_on_success 0%N two_sources
           (constructors_ok directory_down_world)).
  reflexivity.
Defined.

Lemma NewNetwork_constructor_failure_witness :
  exists created msg,
    run_setup (NewNetwork 0%N two_sources)
      (no_network_id directory_down_world) =
      (Return (Err "timeout"), no_network_id directory_down_world,
       created ++ [SEvNet (EvLogError msg)]) /\
    resolvedSubnets (created ++ [SEvNet (EvLogError msg)]) = [] /\
    forall ev, SEvNet ev ∉ created.
Proof.
  apply (NewNetwork_constructor_failure 0%N two_sources
           (no_network_id directory_down_world) "timeout").
  right. exists 1%N. split; [reflexivity |].
  right. exists 2%N. split; [reflexivity |].
  left. reflexivity.
Defined.

Lemma NewNetwork_resolves_in_order_witness :
  (run_setup (NewNetwork 0%N two_sources)
     (constructors_ok subnet8_unknown_world)).1.1 =
    Return (Err "no such subnet") /\
  resolvedSubnets
    (run_setup (NewNetwork 0%N two_sources)
       (constructors_ok subnet8_unknown_world)).2 = [7%N; 8%N].
Proof.
  apply (NewNetwork_resolves_in_order 0%N two_sources
           (constructors_ok subnet8_unknown_world) 1%N 2%N 5%N 3%N);
    reflexivity.
Defined.

(** ** The Chainlink message protocol *)

Module chainlinkFacts.
Import chainlink.

Section Facts.
Context `{!Libraries}.
Implicit Types (ch : Chains) (log : Log) (m : gmap N N).

Lemma exec_task_andThen {A B : Type} (p : task A) (f : A -> task B) ch :
  exec_task (andThen p f) ch =
    (let '(a, evs1) := exec_task p ch in
     let '(b, evs2) := exec_task (f a) ch in
     (b, evs1 ++ evs2)).
Proof.
  induction p as [a | X op k IH]; simpl.
  - by destruct (exec_task (f a) ch) as [b evs2].
  - rewrite IH. destruct (exec_task (k (answer op ch)) ch) as [a evs1].
    by destruct (exec_task (f a) ch) as [b evs2].
Qed.

Lemma foldl_snoc_app {A : Type} (init l : list A) :
  foldl (fun acc x => acc ++ [x]) init l = init ++ l.
Proof.
  revert init. induction l as [| x l IH]; intros init; simpl.
  - by rewrite app_nil_r.
  - by rewrite IH, <- app_assoc.
Qed.

Lemma collectAggregators_app m :
  collectAggregators m =
    replicate (size m) zeroAddress ++ (map_to_list m).*1.
Proof. unfold collectAggregators. apply foldl_snoc_app. Qed.

(** The list built by [make] and [append]: as many zero addresses as
    the map has keys, then the keys. *)
Lemma collectAggregators_shape m :
  length (collectAggregators m) = 2 * size m /\
  take (size m) (collectAggregators m) = replicate (size m) zeroAddress /\
  NoDup (drop (size m) (collectAggregators m)) /\
  (forall a, a ∈ drop (size m) (collectAggregators m) <-> is_Some (m !! a)).
Proof.
  rewrite collectAggregators_app.
  assert (length (replicate (size m) zeroAddress) = size m) as Hlen
    by apply length_replicate.
  split; [| split; [| split]].
  - rewrite length_app, Hlen, length_fmap, length_map_to_list. lia.
  - by rewrite take_app_length'.
  - rewrite <- Hlen at 1. rewrite drop_app_length.
    apply NoDup_fst_map_to_list.
  - intros a. rewrite <- Hlen at 1. rewrite drop_app_length.
    rewrite list_elem_of_fmap. split.
    + intros ([a' r] & -> & Hin). apply elem_of_map_to_list in Hin.
      by exists r.
    + intros [r Hr]. exists (a, r). split; [done |].
      by apply elem_of_map_to_list.
Qed.

(** X12.  The aggregator list of a decoder or a handler is twice as long
    as the aggregator map: it starts with one zero address per key of
    the map, and only then lists the keys, each once.  NewMessageHandler
    never fails, and NewMessageDecoder fails exactly when ParseConfig
    does. *)
Theorem aggregators_start_with_zero_addresses :
  (forall messageProtocolConfig,
      match ParseConfig messageProtocolConfig with
      | Err err => NewMessageDecoder messageProtocolConfig = Err err
      | Ok cfg =>
          exists d,
            NewMessageDecoder messageProtocolConfig = Ok d /\
            let m := AggregatorsToReplicas cfg in
            length (decoder_aggregators d) = 2 * size m /\
            take (size m) (decoder_aggregators d)
              = replicate (size m) zeroAddress /\
            NoDup (drop (size m) (decoder_aggregators d)) /\
            (forall a, a ∈ drop (size m) (decoder_aggregators d)
                       <-> is_Some (m !! a))
      end) /\
  (forall f unsignedMessage,
      exists h,
        NewMessageHandler f unsignedMessage = Ok h /\
        let m := AggregatorsToReplicas (factory_config f) in
        aggregatorsToReplicas h = m /\
        length (aggregators h) = 2 * size m /\
        take (size m) (aggregators h) = replicate (size m) zeroAddress /\
        NoDup (drop (size m) (aggregators h)) /\
        (forall a, a ∈ drop (size m) (aggregators h) <-> is_Some (m !! a))).
Proof.
  split.
  - intros mpc. unfold NewMessageDecoder.
    destruct (ParseConfig mpc) as [cfg | err]; [| done].
    eexists. split; [reflexivity |]. apply collectAggregators_shape.
  - intros f um. eexists. split; [reflexivity |]. simpl.
    split; [done |]. apply collectAggregators_shape.
Qed.

(** NewWarpMessageInfo, path by path. *)
Lemma NewWarpMessageInfo_exec log ch :
  exec_task (NewWarpMessageInfo log) ch =
    if decide (length (Topics log) ≠ 4) then (Err ErrInvalidLog, [])
    else if decide (Topics log !!! 0 ≠ ChainlinkPriceUpdatedFilter) then
      (Err ErrInvalidLog, [])
    else
      (match blockByHash ch (BlockHash log) with
       | Err err => Err err
       | Ok block =>
           match rlp_EncodeToBytes block with
           | Err err => Err err
           | Ok blockHeader =>
               match ConvertToUnsignedMessage
                       (mkChainlinkMessage (log_Address log) blockHeader
                          None [] None (Big (Topics log !!! 1))
                          (Big (Topics log !!! 2)) (Big (Topics log !!! 3))
                          (Data log)) with
               | Err err => Err err
               | Ok unsignedMsg =>
                   Ok (mkWarpMessageInfo (log_Address log) unsignedMsg)
               end
           end
       end, [EvBlockByHash (BlockHash log)]).
Proof.
  unfold NewWarpMessageInfo. repeat case_decide; try done.
  rewrite exec_task_andThen. simpl.
  destruct (blockByHash ch (BlockHash log)) as [block | err]; [| done].
  destruct (rlp_EncodeToBytes block) as [blockHeader | err]; [| done].
  by destruct (ConvertToUnsignedMessage _) as [unsignedMsg | err].
Qed.

(** X13.  NewWarpMessageInfo checks the log before it asks the chain for
    anything: a log without exactly four topics, or whose first topic is
    not the price-update topic, is refused with ErrInvalidLog and no
    call.  For a log with the price-update topic and three more it makes
    one call, for the block of the log by its hash, and when that call
    fails, or the encoding of what it returned does, the error is handed
    back as it is. *)
Theorem NewWarpMessageInfo_checks_before_fetching log ch :
  (length (Topics log) ≠ 4 \/
   Topics log !! 0 ≠ Some ChainlinkPriceUpdatedFilter ->
   exec_task (NewWarpMessageInfo log) ch = (Err ErrInvalidLog, [])) /\
  (forall t1 t2 t3,
      Topics log = [ChainlinkPriceUpdatedFilter; t1; t2; t3] ->
      (exec_task (NewWarpMessageInfo log) ch).2
        = [EvBlockByHash (BlockHash log)] /\
      (forall err,
          blockByHash ch (BlockHash log) = Err err ->
          (exec_task (NewWarpMessageInfo log) ch).1 = Err err) /\
      (forall block err,
          blockByHash ch (BlockHash log) = Ok block ->
          rlp_EncodeToBytes block = Err err ->
          (exec_task (NewWarpMessageInfo log) ch).1 = Err err)).
Proof.
  rewrite NewWarpMessageInfo_exec. split.
  - intros Hbad. case_decide as Hlen; [done |].
    case_decide as Htopic; [done |]. exfalso.
    destruct Hbad as [Hbad | Hbad]; [done |]. apply Hbad.
    try apply dec_stable in Htopic. rewrite <- Htopic.
    apply list_lookup_lookup_total_lt. try apply dec_stable in Hlen. lia.
  - intros t1 t2 t3 Htopics. rewrite Htopics.
    rewrite decide_False by (simpl; intros Hne; by apply Hne).
    rewrite decide_False by (simpl; intros Hne; by apply Hne).
    cbn [fst snd]. split; [done |]. split.
    + by intros err ->.
    + by intros block err -> ->.
Qed.

(** The loop of Decode: what it returns and what it calls. *)
Lemma decodeLogs_exec i logs messages ch :
  length messages = i + length logs ->
  match firstBad ch logs with
  | Some k =>
      (exists log err,
          logs !! k = Some log /\ infoOf ch log = Err err /\
          (exec_task (decodeLogs i logs messages) ch).1 = Err err) /\
      (exec_task (decodeLogs i logs messages) ch).2
        = fetched ch (take (S k) logs)
  | None =>
      (exists out,
          (exec_task (decodeLogs i logs messages) ch).1 = Ok out /\
          length out = length messages /\
          (forall j, j < i -> out !! j = messages !! j) /\
          (forall j log, logs !! j = Some log ->
             exists info,
               infoOf ch log = Ok info /\ out !! (i + j) = Some (Some info)))
      /\
      (exec_task (decodeLogs i logs messages) ch).2 = fetched ch logs
  end.
Proof.
  revert i messages. induction logs as [| log rest IH]; intros i messages Hlen.
  - simpl. split; [| done]. exists messages. split; [done |].
    split; [done |]. split; [done |]. intros j log Hj. done.
  - cbn [decodeLogs firstBad]. rewrite exec_task_andThen.
    unfold fetched. rewrite bind_cons. fold (fetched ch rest).
    unfold infoOf at 1.
    destruct (exec_task (NewWarpMessageInfo log) ch) as [[info | err] evs]
      eqn:Hlog; cbn [fst].
    + specialize (IH (S i) (<[i := Some info]> messages)).
      rewrite length_insert in IH. simpl in Hlen.
      specialize (IH ltac:(lia)).
      destruct (firstBad ch rest) as [k |]; cbn [fmap option_fmap option_map].
      * destruct IH as [(log' & err & Hk & Hbad & Hres) Hevs].
        destruct (exec_task (decodeLogs (S i) rest _) ch) as [r evs'].
        simpl in *. split; [by exists log', err |].
        by rewrite Hlog, Hevs.
      * destruct IH as [(out & Hres & Hout & Hkeep & Hnew) Hevs].
        destruct (exec_task (decodeLogs (S i) rest _) ch) as [r evs'].
        simpl in *. subst r evs'. split; [| done].
        exists out. split; [done |]. split; [done |]. split.
        -- intros j Hj. rewrite Hkeep by lia.
           apply list_lookup_insert_ne. lia.
        -- intros [| j] log' Hj; simpl in Hj.
           ++ injection Hj as <-. exists info. unfold infoOf.
              rewrite Hlog. split; [done |].
              rewrite Nat.add_0_r, Hkeep by lia.
              apply list_lookup_insert_eq. lia.
           ++ destruct (Hnew j log' Hj) as (info' & Hinfo & Hlook).
              exists info'. split; [done |].
              by replace (i + S j) with (S (i + j)) by lia.
    + simpl. rewrite Hlog. simpl. split; [| done].
      exists log, err. unfold infoOf. by rewrite Hlog.
Qed.

(** X14.  Decode asks the chain for logs exactly when the bloom filter
    of the header has the price-update topic: otherwise it returns an
    empty list without any call.  When it asks, the query comes first
    and only once, for the block of the header alone, that topic and the
    aggregator list of the decoder; and when the query fails Decode
    returns its error and makes no other call. *)
Theorem Decode_queries_on_bloom_hit c header ch :
  (Bloom_Test (Bloom header) ChainlinkPriceUpdatedFilter = false ->
   exec_task (Decode c header) ch = (Ok [], [])) /\
  (Bloom_Test (Bloom header) ChainlinkPriceUpdatedFilter = true ->
   (exists rest,
       (exec_task (Decode c header) ch).2
         = EvFilterLogs (queryOf c header) :: rest /\
       forall q, EvFilterLogs q ∉ rest) /\
   (forall err,
       filterLogs ch (queryOf c header) = Err err ->
       exec_task (Decode c header) ch
         = (Err err, [EvFilterLogs (queryOf c header)]))).
Proof.
  unfold Decode. rewrite exec_task_andThen. split.
  - intros ->. reflexivity.
  - intros ->. cbn [exec_task perform answer chain_event_of].
    fold (queryOf c header).
    destruct (filterLogs ch (queryOf c header)) as [logs | err].
    + split; [| done].
      pose proof (decodeLogs_exec 0 logs (replicate (length logs) None) ch
                    ltac:(by rewrite length_replicate)) as Hloop.
      destruct (exec_task (decodeLogs 0 logs _) ch) as [r evs].
      exists evs. split; [done |]. intros q.
      assert (forall l, EvFilterLogs q ∉ fetched ch l) as Hnone.
      { intros l. unfold fetched. rewrite list_elem_of_bind.
        intros (log & Hin & _). rewrite NewWarpMessageInfo_exec in Hin.
        repeat case_decide; simpl in Hin; set_solver. }
      destruct (firstBad ch logs) as [k |]; destruct Hloop as [_ Hevs];
        simpl in Hevs; rewrite Hevs; apply Hnone.
    + split; [| by intros ? [= <-]].
      exists []. split; [done |]. intros q. apply not_elem_of_nil.
Qed.

(** X16.  When NewWarpMessageInfo fails on some log the query found,
    Decode returns the error of the first such log and no message, and
    after the query it makes just the calls of NewWarpMessageInfo on the
    logs up to that one: the later logs are not looked at. *)
Theorem Decode_stops_at_first_bad_log c header ch logs k :
  Bloom_Test (Bloom header) ChainlinkPriceUpdatedFilter = true ->
  filterLogs ch (queryOf c header) = Ok logs ->
  firstBad ch logs = Some k ->
  exists log err,
    logs !! k = Some log /\ infoOf ch log = Err err /\
    exec_task (Decode c header) ch =
      (Err err, EvFilterLogs (queryOf c header) :: fetched ch (take (S k) logs)).
Proof.
  intros Hbloom Hlogs Hbad. unfold Decode.
  rewrite exec_task_andThen, Hbloom.
  cbn [exec_task perform answer chain_event_of]. fold (queryOf c header).
  rewrite Hlogs.
  pose proof (decodeLogs_exec 0 logs (replicate (length logs) None) ch
                ltac:(by rewrite length_replicate)) as Hexec.
  rewrite Hbad in Hexec. destruct Hexec as [(log & err & Hk & Herr & Hres) Hevs].
  destruct (exec_task (decodeLogs 0 logs _) ch) as [r evs].
  simpl in *. subst r evs. by exists log, err.
Qed.

(** SendMessage, path by path. *)
Lemma SendMessage_exec c signedMessage ch :
  exec_task (SendMessage c signedMessage) ch =
    match json_Unmarshal (Payload (Unsigned signedMessage)) with
    | Err err =>
        ((zeroHash, Some err),
         [EvInfo "Sending message to destination chain"])
    | Ok msg =>
    match PackImportEvent (blockHeader msg) (txIndex msg) (receiptProof msg)
            (logIndex msg) with
    | Err err =>
        ((zeroHash, Some err),
         [EvInfo "Sending message to destination chain";
          EvError "Failed packing importEvent call data"])
    | Ok callData =>
    match aggregatorsToReplicas c !! aggregator msg with
    | None =>
        ((zeroHash,
          Some ("failed to find replica for aggregator: "
                  +:+ Address_String (aggregator msg))),
         [EvInfo "Sending message to destination chain";
          EvError "Failed to find replica for aggregator"])
    | Some replica =>
    match sendTx ch signedMessage (Address_Hex replica) 0 callData with
    | Err err =>
        ((zeroHash, Some err),
         [EvInfo "Sending message to destination chain";
          EvSendTx signedMessage (Address_Hex replica) 0 callData;
          EvError "Failed to send tx."])
    | Ok txHash =>
    match waitForReceipt ch signedMessage txHash 0%N with
    | Some err =>
        ((zeroHash, Some err),
         [EvInfo "Sending message to destination chain";
          EvSendTx signedMessage (Address_Hex replica) 0 callData;
          EvWaitForReceipt signedMessage txHash 0])
    | None =>
        ((txHash, None),
         [EvInfo "Sending message to destination chain";
          EvSendTx signedMessage (Address_Hex replica) 0 callData;
          EvWaitForReceipt signedMessage txHash 0;
          EvInfo "Delivered message to destination chain"])
    end
    end
    end
    end
    end.
Proof.
  unfold SendMessage. rewrite exec_task_andThen.
  cbn [exec_task perform answer chain_event_of CalculateImportEventGasLimit].
  destruct (json_Unmarshal _) as [msg | err]; [| done].
  destruct (PackImportEvent _ _ _ _) as [callData | err]; [| done].
  destruct (aggregatorsToReplicas c !! aggregator msg) as [replica |];
    [| done].
  rewrite exec_task_andThen.
  cbn [exec_task perform answer chain_event_of].
  destruct (sendTx ch signedMessage _ 0 callData) as [txHash | err];
    [| done].
  rewrite exec_task_andThen.
  cbn [exec_task perform answer chain_event_of].
  by destruct (waitForReceipt ch signedMessage txHash 0%N).
Qed.

(** What SendMessage sends, when it sends. *)
Lemma SendMessage_sent c signedMessage ch sm toAddress gasLimit callData :
  EvSendTx sm toAddress gasLimit callData
    ∈ (exec_task (SendMessage c signedMessage) ch).2 ->
  sm = signedMessage /\ gasLimit = 0%Z /\
  exists msg replica,
    json_Unmarshal (Payload (Unsigned signedMessage)) = Ok msg /\
    aggregatorsToReplicas c !! aggregator msg = Some replica /\
    toAddress = Address_Hex replica /\
    PackImportEvent (blockHeader msg) (txIndex msg) (receiptProof msg)
      (logIndex msg) = Ok callData.
Proof.
  rewrite SendMessage_exec.
  destruct (json_Unmarshal _) as [msg | err] eqn:Hmsg; [| set_solver].
  destruct (PackImportEvent _ _ _ _) as [callData' | err] eqn:Hpack;
    [| set_solver].
  destruct (aggregatorsToReplicas c !! aggregator msg) as [replica |] eqn:Hr;
    [| set_solver].
  intros Hin.
  assert (EvSendTx sm toAddress gasLimit callData
            = EvSendTx signedMessage (Address_Hex replica) 0 callData')
    as Heq.
  { destruct (sendTx ch signedMessage _ 0 callData') as [txHash | err];
      [destruct (waitForReceipt ch signedMessage txHash 0%N) |];
      simpl in Hin; set_solver. }
  injection Heq as -> -> -> ->. split; [done |]. split; [done |].
  by exists msg, replica.
Qed.

(** X17.  Every transaction SendMessage sends carries the signed message
    it was given, a gas limit of 0, the call data packed from the decoded
    payload, and goes to the replica the handler's map gives for the
    aggregator of the payload; so nothing is sent when the payload does
    not decode, the call data cannot be packed or the aggregator has no
    replica.  At most one transaction is sent. *)
Theorem SendMessage_sends_to_replica c signedMessage ch :
  (forall sm toAddress gasLimit callData,
      EvSendTx sm toAddress gasLimit callData
        ∈ (exec_task (SendMessage c signedMessage) ch).2 ->
      sm = signedMessage /\ gasLimit = 0%Z /\
      exists msg replica,
        json_Unmarshal (Payload (Unsigned signedMessage)) = Ok msg /\
        aggregatorsToReplicas c !! aggregator msg = Some replica /\
        toAddress = Address_Hex replica /\
        PackImportEvent (blockHeader msg) (txIndex msg) (receiptProof msg)
          (logIndex msg) = Ok callData) /\
  length (filter (fun ev => is_SendTx ev)
            (exec_task (SendMessage c signedMessage) ch).2) ≤ 1.
Proof.
  split; [apply SendMessage_sent |].
  rewrite SendMessage_exec.
  destruct (json_Unmarshal _) as [msg | err]; [| simpl; lia].
  destruct (PackImportEvent _ _ _ _) as [callData | err]; [| simpl; lia].
  destruct (aggregatorsToReplicas c !! aggregator msg) as [replica |];
    [| simpl; lia].
  destruct (sendTx ch signedMessage _ 0 callData) as [txHash | err];
    [destruct (waitForReceipt ch signedMessage txHash 0%N) |];
    vm_compute; lia.
Qed.

(** X18.  SendMessage returns a transaction hash without error exactly
    when the payload decodes, the call data packs, the aggregator has a
    replica, the transaction is sent and its receipt comes (waited for
    under the zero message ID); the hash is then the one of the
    transaction.  Whenever it returns an error the hash is the zero
    hash. *)
Theorem SendMessage_outcome c signedMessage ch :
  (forall txHash,
      (exec_task (SendMessage c signedMessage) ch).1 = (txHash, None) <->
      exists msg callData replica,
        json_Unmarshal (Payload (Unsigned signedMessage)) = Ok msg /\
        PackImportEvent (blockHeader msg) (txIndex msg) (receiptProof msg)
          (logIndex msg) = Ok callData /\
        aggregatorsToReplicas c !! aggregator msg = Some replica /\
        sendTx ch signedMessage (Address_Hex replica) 0 callData
          = Ok txHash /\
        waitForReceipt ch signedMessage txHash 0%N = None) /\
  (forall hash err,
      (exec_task (SendMessage c signedMessage) ch).1 = (hash, Some err) ->
      hash = zeroHash).
Proof.
  rewrite SendMessage_exec.
  destruct (json_Unmarshal _) as [msg | err] eqn:Hmsg.
  2: { split; [| by intros ? ? [= <- _]]. intros txHash.
       split; [done | by intros (? & ? & ? & ? & _)]. }
  destruct (PackImportEvent _ _ _ _) as [callData | err] eqn:Hpack.
  2: { split; [| by intros ? ? [= <- _]]. intros txHash.
       split; [done |]. intros (? & ? & ? & ? & ? & _). congruence. }
  destruct (aggregatorsToReplicas c !! aggregator msg) as [replica |] eqn:Hr.
  2: { split; [| by intros ? ? [= <- _]]. intros txHash.
       split; [done |]. intros (? & ? & ? & ? & _ & ? & _). congruence. }
  destruct (sendTx ch signedMessage _ 0 callData) as [txHash' | err]
    eqn:Hsend.
  2: { split; [| by intros ? ? [= <- _]]. intros txHash.
       split; [done |]. intros (? & ? & ? & ? & ? & ? & ? & _).
       simplify_eq. congruence. }
  destruct (waitForReceipt ch signedMessage txHash' 0%N) as [err |] eqn:Hwait.
  - split; [| by intros ? ? [= <- _]]. intros txHash. split; [done |].
    intros (? & ? & ? & ? & ? & ? & ? & ?). simplify_eq. congruence.
  - split; [| done]. intros txHash. split.
    + intros [= <-]. by exists msg, callData, replica.
    + intros (? & ? & ? & ? & ? & ? & ? & ?). simplify_eq. simpl.
      f_equal. congruence.
Qed.

(** X19.  GetMessageRoutingInfo and SendMessage agree: when SendMessage
    sends a transaction for a payload, GetMessageRoutingInfo routes
    every message with that payload, without error, to the replica the
    transaction went to, on the destination chain of the handler, from
    the source address of the message and the source chain of the
    handler's own message; and when GetMessageRoutingInfo fails on a
    payload, SendMessage sends nothing for it. *)
Theorem routing_agrees_with_sending c signedMessage warpMessageInfo ch :
  Payload (wmi_UnsignedMessage warpMessageInfo)
    = Payload (Unsigned signedMessage) ->
  (forall sm toAddress gasLimit callData,
      EvSendTx sm toAddress gasLimit callData
        ∈ (exec_task (SendMessage c signedMessage) ch).2 ->
      exists replica,
        toAddress = Address_Hex replica /\
        GetMessageRoutingInfo c warpMessageInfo =
          (SourceChainID (unsignedMessage c), SourceAddress warpMessageInfo,
           destinationBlockchainID c, replica, None)) /\
  (forall err,
      (GetMessageRoutingInfo c warpMessageInfo).2 = Some err ->
      GetMessageRoutingInfo c warpMessageInfo
        = (0%N, zeroAddress, 0%N, zeroAddress, Some err) /\
      forall sm toAddress gasLimit callData,
        EvSendTx sm toAddress gasLimit callData
          ∉ (exec_task (SendMessage c signedMessage) ch).2).
Proof.
  intros Hpayload. unfold GetMessageRoutingInfo. rewrite Hpayload. split.
  - intros sm toAddress gasLimit callData Hin.
    apply SendMessage_sent in Hin
      as (_ & _ & msg & replica & -> & -> & -> & _).
    by exists replica.
  - intros err Herr. split.
    + destruct (json_Unmarshal _) as [msg | e]; simpl in *; [| congruence].
      destruct (aggregatorsToReplicas c !! aggregator msg); simpl in *;
        [done | congruence].
    + intros sm toAddress gasLimit callData Hin.
      apply SendMessage_sent in Hin
        as (_ & _ & msg & replica & Hmsg & Hr & _).
      rewrite Hmsg, Hr in Herr. done.
Qed.
End Facts.
End chainlinkFacts.

(** The package at work on the toy libraries. *)
Example Decode_two_price_logs :
  chainlink.exec_task (chainlink.Decode sample_decoder sample_header)
    (chains_with [price_log 11; price_log 12]) =
  (Ok [Some (chainlink.mkWarpMessageInfo 5
               (chainlink.mkUnsignedMessage 1 2 [5%N; 1%N; 2%N]));
       Some (chainlink.mkWarpMessageInfo 5
               (chainlink.mkUnsignedMessage 1 2 [5%N; 1%N; 2%N]))],
   [chainlink.EvFilterLogs
      (chainlink.mkFilterQuery [[chainlink.ChainlinkPriceUpdatedFilter]]
         [0%N; 5%N] 42 42);
    chainlink.EvBlockByHash 11; chainlink.EvBlockByHash 12]).
Proof. vm_compute. reflexivity. Qed.

Example NewMessageDecoder_one_aggregator :
  chainlink.NewMessageDecoder (chainlink.mkMessageProtocolConfig "" ∅) =
    Ok (chainlink.mkDecoder [0%N; 5%N]).
Proof. vm_compute. reflexivity. Qed.

Example SendMessage_sample :
  chainlink.exec_task (chainlink.SendMessage sample_handler sample_message)
    (chains_with []) =
  ((1234%N, None),
   [chainlink.EvInfo "Sending message to destination chain";
    chainlink.EvSendTx sample_message "0x4d" 0 [];
    chainlink.EvWaitForReceipt sample_message 1234 0;
    chainlink.EvInfo "Delivered message to destination chain"]).
Proof. vm_compute. reflexivity. Qed.

Lemma Decode_stops_at_first_bad_log_witness :
  exists log err,
    [price_log 11; bare_log; price_log 12] !! 1 = Some log /\
    chainlink.infoOf (chains_with [price_log 11; bare_log; price_log 12]) log
      = Err err /\
    chainlink.exec_task (chainlink.Decode sample_decoder sample_header)
      (chains_with [price_log 11; bare_log; price_log 12]) =
      (Err err,
       chainlink.EvFilterLogs (chainlink.queryOf sample_decoder sample_header)
         :: chainlink.fetched
              (chains_with [price_log 11; bare_log; price_log 12])
              (take 2 [price_log 11; bare_log; price_log 12])).
Proof.
  apply (chainlinkFacts.Decode_stops_at_first_bad_log sample_decoder
           sample_header (chains_with [price_log 11; bare_log; price_log 12])
           [price_log 11; bare_log; price_log 12] 1).
  - vm_compute. reflexivity.
  - reflexivity.
  - vm_compute. reflexivity.
Defined.

Lemma routing_agrees_with_sending_witness :
  chainlink.Payload (chainlink.mkUnsignedMessage 1 2 [5%N; 1%N; 2%N])
    = chainlink.Payload (chainlink.Unsigned sample_message) /\
  exists replica,
    "0x4d" = chainlink.Address_Hex replica /\
    chainlink.GetMessageRoutingInfo sample_handler
      (chainlink.mkWarpMessageInfo 5
         (chainlink.mkUnsignedMessage 1 2 [5%N; 1%N; 2%N])) =
      (chainlink.SourceChainID (chainlink.unsignedMessage sample_handler),
       5%N, chainlink.destinationBlockchainID sample_handler, replica,
       None).
Proof.
  split; [reflexivity |].
  destruct (chainlinkFacts.routing_agrees_with_sending sample_handler
              sample_message
              (chainlink.mkWarpMessageInfo 5
                 (chainlink.mkUnsignedMessage 1 2 [5%N; 1%N; 2%N]))
              (chains_with [])) as [Hsent _].
  - reflexivity.
  - apply (Hsent sample_message "0x4d" 0%Z []).
    vm_compute. right. left.
Defined.

(** ** The test utilities *)

Module testutilsFacts.
Import testutils.

Lemma append_newline_not_empty (s : string) :
  s +:+ String newline "" ≠ "".
Proof. by destruct s. Qed.

(** What trimming leaves: the string is the result followed by newlines
    only, and the result does not end with a newline. *)
Lemma TrimRight_newline_spec (s : string) :
  (exists n, s = TrimRight s [newline] +:+ newlines n) /\
  (forall r, TrimRight s [newline] ≠ r +:+ String newline "").
Proof.
  induction s as [| c rest [[n Hn] Hend]]; simpl.
  - split; [by exists 0 |]. intros r Hr. symmetry in Hr.
    by apply append_newline_not_empty in Hr.
  - destruct (TrimRight rest [newline]) as [| d t] eqn:Ht.
    + case_decide as Hc.
      * apply list_elem_of_singleton in Hc as ->. split.
        -- exists (S n). simpl. by rewrite Hn.
        -- intros r Hr. symmetry in Hr.
           by apply append_newline_not_empty in Hr.
      * split.
        -- exists n. simpl. by rewrite Hn.
        -- intros [| c' r] Hr; simpl in Hr.
           ++ injection Hr as ->. apply Hc. by apply list_elem_of_singleton.
           ++ injection Hr as _ Hr. symmetry in Hr.
              by apply append_newline_not_empty in Hr.
    + split.
      * exists n. change (String c rest = String c (String d t +:+ newlines n)).
        by rewrite <- Hn.
      * intros [| c' r] Hr; simpl in Hr.
        -- by injection Hr.
        -- injection Hr as _ Hr. by apply (Hend r).
Qed.

(** X21.  ReadHexTextFile returns the content of the file without its
    trailing newlines, and nothing else is removed: the content is the
    result followed by newlines only, and the result does not end with a
    newline.  It stops the test exactly when the file cannot be read. *)
Theorem ReadHexTextFile_trims_newlines
    (readFile : string -> result string) (filename : string) :
  match readFile filename with
  | Ok fileData =>
      exists text n,
        ReadHexTextFile readFile filename = Return text /\
        fileData = text +:+ newlines n /\
        forall r, text ≠ r +:+ String newline ""
  | Err _ => exists msg, ReadHexTextFile readFile filename = Panics msg
  end.
Proof.
  unfold ReadHexTextFile.
  destruct (readFile filename) as [fileData | err]; [| by eexists].
  destruct (TrimRight_newline_spec fileData) as [[n Hn] Hend].
  by exists (TrimRight fileData [newline]), n.
Qed.
End testutilsFacts.

(** A carriage return before the newline stays. *)
Example ReadHexTextFile_keeps_carriage_return :
  testutils.ReadHexTextFile
    (fun _ => Ok ("ab" +:+ String (Ascii.ascii_of_nat 13)
                    (String testutils.newline
                       (String testutils.newline ""))))
    "key.hex" =
  Return ("ab" +:+ String (Ascii.ascii_of_nat 13) "").
Proof. vm_compute. reflexivity. Qed.
